(** * CarouselImage: layout sizing and scroll-driven banner animation

    A shallow embedding of [src/lib/CarouselImage.tsx] (a React Native
    component) and the properties of its tile-width computation, its
    scroll guard and its render function.

    Numbers.  JavaScript numbers are modelled exactly: by rationals [Q]
    wherever the component computes ([Math.round], the guard, the style
    values), and by reals [R] for the eased values of the banner
    animation, which are irrational in general.  The model covers finite
    values only and ignores the rounding of IEEE doubles; a division is
    only reasoned about where its divisor is non-zero (JavaScript yields
    an infinity or NaN there, [Q] yields 0).  Equality on [Q] is [Qeq],
    written [==].

    Outside the repository.  [Animated.Value.interpolate] and
    [Easing.bezier] belong to react-native; the component only configures
    them.  Their meaning is taken from the specification of the
    scroll-to-animation mapping and marked as such below. *)

From stdpp Require Import gmap strings pretty.
From Stdlib Require Import QArith Qround Qreals Reals Lra Lqa ZArith Lia List.
Import ListNotations.

Open Scope Q_scope.

(** [lra] is the one for rationals; [rlra] is the one for reals. *)
Ltac rlra := Lra.lra.

(** ** Numbers *)

(** [Math.round]: the nearest integer, a tie going to the larger one. *)
Definition Math_round (x : Q) : Q := inject_Z (Qfloor (x + (1 # 2))).

(** JavaScript truthiness of a (finite) number: everything but zero. *)
Definition truthy (x : Q) : bool := negb (Qeq_bool x 0).

(** [a || b] on an optional number: [undefined] and [0] are falsy. *)
Definition or_default (a : option Q) (b : Q) : Q :=
  match a with
  | Some x => if truthy x then x else b
  | None => b
  end.

(** What the specification calls rounding: [k] is the integer nearest to
    [x], the upper one of two equally near. *)
Definition nearest_integer (x : Q) (k : Z) : Prop :=
  inject_Z k - (1 # 2) <= x /\ x < inject_Z k + (1 # 2).

(** ** Styles and image descriptors *)

(** The control points handed to [Easing.bezier]. *)
Record bezier := Easing_bezier { cx1 : Q; cy1 : Q; cx2 : Q; cy2 : Q }.

(** The configuration object handed to [Animated.Value.interpolate]. *)
Record interpolation := {
  inputRange : Q * Q;
  outputRange : Q * Q;
  easing : bezier
}.

(** Values found in the style objects of this component. *)
Inductive style_value :=
| SNum (q : Q)
| SStr (s : string)
| SAnimated (i : interpolation)
| STransform (l : list (string * interpolation)).

(** A style object: a JavaScript object from style keys to values. *)
Abbreviation StyleObject := (gmap string style_value).

(** A [style] prop given as an array; [undefined] entries are allowed. *)
Abbreviation StyleArray := (list (option StyleObject)).

(** React Native resolves a style array from left to right, a later entry
    overriding the keys of the earlier ones, and skips absent entries. *)
Definition flattenStyle (l : StyleArray) : StyleObject :=
  foldl (fun acc o => match o with Some s => s ∪ acc | None => acc end) ∅ l.

(** [ImageProps], as far as the component looks into it: the descriptor
    itself stays opaque, only its optional [style] is read. *)
Record ImageProps := {
  source : string;
  style : option StyleObject
}.

(** The theme record returned by [getTheme]; only these fields are read. *)
Record Theme := {
  paddingSmall : Q;
  colorLine : string;
  lineWidth : Q
}.

(** ** Props and state *)

Definition GAP_DEFAULT : Q := 6.

Module Item.
Record CarouselImageItem := {
  key : string;
  image : ImageProps
}.
End Item.
Abbreviation CarouselImageItem := Item.CarouselImageItem.

(** What [renderContent] returns is opaque to the component. *)
Definition Element := string.

Module Props.
Record CarouselImageProps := {
  data : list CarouselImageItem;
  numColumns : Q;
  gap : option Q;
  image : option ImageProps;
  rounded : bool;
  renderContent : option (CarouselImageItem -> option Element)
}.
End Props.
Abbreviation CarouselImageProps := Props.CarouselImageProps.

Record CarouselImageState := {
  width : Q;
  itemWidth : Q
}.

(** A component instance: its props, its state and the instance field
    [animatedValueScroll] (the current value of the [Animated.Value]). *)
Record CarouselImage := {
  props : CarouselImageProps;
  state : CarouselImageState;
  animatedValueScroll : Q
}.

Inductive error := ConfigurationError.

Inductive result (A : Type) :=
| Ok (a : A)
| Threw (e : error).
Arguments Ok {A} a.
Arguments Threw {A} e.

(** Construction: the class has no constructor body, only the two field
    initialisers; [windowWidth] stands for [Dimensions.get('window').width]. *)
Definition initialInstance (p : CarouselImageProps) (windowWidth : Q)
  : CarouselImage :=
  {| props := p;
     state := {| width := windowWidth; itemWidth := 0 |};
     animatedValueScroll := 0 |}.

Definition CarouselImage_new (p : CarouselImageProps) (windowWidth : Q)
  : result CarouselImage :=
  Ok (initialInstance p windowWidth).

(** ** The layout handler *)

(** The expression assigned to [itemWidth] in [onLayout]. *)
Definition computeTileWidth (p : CarouselImageProps) (w : Q) : Q :=
  Math_round ((w - Props.numColumns p * or_default (Props.gap p) GAP_DEFAULT)
              / (Props.numColumns p + 0.25)).

(** [onLayout]: [setState] replaces both fields of the state. *)
Definition onLayout (c : CarouselImage) (w : Q) : CarouselImage :=
  {| props := props c;
     state := {| width := w; itemWidth := computeTileWidth (props c) w |};
     animatedValueScroll := animatedValueScroll c |}.

(** ** The scroll handler *)

(** The [onScroll] closure handed to [Carousel]; [evt] is [None] for a
    missing event object, otherwise the reported [contentOffset.x]. *)
Definition onScroll (c : CarouselImage) (evt : option Q) : CarouselImage :=
  match evt with
  | Some x =>
      if Qle_bool x (itemWidth (state c) * 2)
      then {| props := props c; state := state c; animatedValueScroll := x |}
      else c
  | None => c
  end.

(** The offset a scroll event hands on to [animatedValueScroll], if any. *)
Definition forwarded (iw : Q) (evt : option Q) : option Q :=
  match evt with
  | Some x => if Qle_bool x (iw * 2) then Some x else None
  | None => None
  end.

(** ** Render *)

Definition bannerEasing : bezier := Easing_bezier 0 0 0.58 1.

(** The [opacity] entry of the banner style. *)
Definition opacityInterpolation (iw : Q) : interpolation :=
  {| inputRange := (0, iw * 2);
     outputRange := (1, 0.05);
     easing := bannerEasing |}.

(** The [translateX] entry of the banner transform. *)
Definition translateXInterpolation (iw : Q) : interpolation :=
  {| inputRange := (0, iw * 2);
     outputRange := (0, - (iw * 0.25));
     easing := bannerEasing |}.

(** [styles.image] of the style sheet. *)
Definition styles_image : StyleObject :=
  {[ "position" := SStr "absolute"; "left" := SNum 0; "top" := SNum 0 ]}.

Record BannerView := {
  banner_props : ImageProps;
  banner_style : StyleArray
}.

(** One rendered item: the [TouchableOpacity] wrapper carries no size of
    its own, so a tile records the inner [View] and its [Image]. *)
Record TileView := {
  tile_key : string;
  tile_style : StyleObject;
  tile_image : ImageProps;
  tile_image_style : StyleArray;
  tile_content : option Element
}.

Inductive CarouselChild :=
| Spacer (k : string) (st : StyleObject)
| Tile (t : TileView).

Record CarouselView := {
  carousel_gap : Q;
  carousel_children : list CarouselChild
}.

(** The outer [View]: the banner and the carousel, each present or [null]. *)
Record ContainerView := {
  view_banner : option BannerView;
  view_carousel : option CarouselView
}.

Definition renderBanner (iw : Q) (img : ImageProps) : BannerView :=
  {| banner_props := img;
     banner_style :=
       [ style img;
         Some styles_image;
         Some {[ "height" := SStr "100%";
                 "resizeMode" := SStr "contain";
                 "width" := SNum (iw * 2);
                 "opacity" := SAnimated (opacityInterpolation iw);
                 "transform" :=
                   STransform [("translateX", translateXInterpolation iw)] ]} ] |}.

Definition renderTile (th : Theme) (p : CarouselImageProps) (iw : Q)
    (item : CarouselImageItem) : TileView :=
  {| tile_key := Item.key item;
     tile_style :=
       {[ "width" := SNum iw;
          "flexDirection" := SStr "column";
          "alignItems" := SStr "center";
          "justifyContent" := SStr "center" ]};
     tile_image := Item.image item;
     tile_image_style :=
       [ style (Item.image item);
         Some {[ "width" := SNum iw;
                 "height" := SNum iw;
                 "marginBottom" := SNum (paddingSmall th) ]};
         if Props.rounded p
         then Some {[ "borderRadius" := SNum (iw / 2);
                      "borderColor" := SStr (colorLine th);
                      "borderWidth" := SNum (lineWidth th) ]}
         else None ];
     tile_content :=
       match Props.renderContent p with
       | Some f => f item
       | None => None
       end |}.

(** A child that is either an element or [null]. *)
Definition child_or_null {A} (o : option A) : list A :=
  match o with Some a => [a] | None => [] end.

Definition renderCarousel (th : Theme) (p : CarouselImageProps) (iw : Q)
  : CarouselView :=
  {| carousel_gap := or_default (Props.gap p) GAP_DEFAULT;
     carousel_children :=
       child_or_null
         (match Props.image p with
          | Some _ => Some (Spacer "__-1" {[ "width" := SNum (iw * 2) ]})
          | None => None
          end)
       ++ map (fun item => Tile (renderTile th p iw item)) (Props.data p)
       ++ child_or_null
            (if truthy iw
             then Some (Spacer ("_" +:+ pretty (length (Props.data p)))
                               {[ "width" := SNum iw ]})
             else None) |}.

Definition render (th : Theme) (c : CarouselImage) : ContainerView :=
  let iw := itemWidth (state c) in
  {| view_banner :=
       match Props.image (props c) with
       | Some img => if truthy iw then Some (renderBanner iw img) else None
       | None => None
       end;
     view_carousel :=
       if truthy iw then Some (renderCarousel th (props c) iw) else None |}.

(** A child of the carousel that is an item, not a spacer. *)
Definition tileOf (ch : CarouselChild) : option TileView :=
  match ch with Tile t => Some t | Spacer _ _ => None end.

(** The rendered items of a carousel, in display order. *)
Definition tiles (cv : CarouselView) : list TileView :=
  omap tileOf (carousel_children cv).

(** ** The scroll-to-animation mapping *)

Record AnimationDomain := { dom_min : Q; dom_max : Q }.

(** A sample of the banner animation.  Eased values are irrational in
    general, so the two components are exact reals. *)
Record AnimationSample := { opacity : R; translateX : R }.

(** The domain over which an interpolation is declared. *)
Definition domain (i : interpolation) : AnimationDomain :=
  {| dom_min := fst (inputRange i); dom_max := snd (inputRange i) |}.

(** Modelled from the spec: the easing of react-native's [Easing.bezier],
    whose code is not under src/.  The spec gives it as a cubic Bézier
    curve through (0,0), (x1,y1), (x2,y2), (1,1); this is one coordinate
    of that curve at the curve parameter [t]. *)
Definition bezierCoordinate (c1 c2 t : R) : R :=
  (3 * (1 - t) * (1 - t) * t * c1 + 3 * (1 - t) * t * t * c2 + t * t * t)%R.

(** Modelled from the spec: the easing sends the progress [p] to [v] when
    the curve passes through the point [(p, v)]. *)
Definition eases (b : bezier) (p v : R) : Prop :=
  exists t : R,
    (0 <= t <= 1)%R /\
    bezierCoordinate (Q2R (cx1 b)) (Q2R (cx2 b)) t = p /\
    bezierCoordinate (Q2R (cy1 b)) (Q2R (cy2 b)) t = v.

(** Modelled from the spec: the offset is clamped into the domain before
    it is mapped. *)
Definition clamp (lo hi x : Q) : Q :=
  if Qle_bool x lo then lo else if Qle_bool hi x then hi else x.

(** A division that reports a zero divisor instead of computing. *)
Definition checkedDivide (a b : Q) : option Q :=
  if Qeq_bool b 0 then None else Some (a / b).

(** Modelled from the spec: the progress of react-native's [interpolate]
    (not under src/): the offset is clamped into the domain and
    [p = offset / domain.max], with [p = 0] when [domain.max] is 0.
    [None] is a division fault. *)
Definition progress (d : AnimationDomain) (offset : Q) : option Q :=
  if Qeq_bool (dom_max d) 0 then Some 0
  else checkedDivide (clamp (dom_min d) (dom_max d) offset) (dom_max d).

(** Modelled from the spec: [lerp_with_easing(from, to, p)]. *)
Definition lerp_with_easing (b : bezier) (from to p : Q) (out : R) : Prop :=
  exists v : R,
    eases b (Q2R p) v /\ out = (Q2R from + (Q2R to - Q2R from) * v)%R.

(** Modelled from the spec: the value an interpolation takes at an offset. *)
Definition interpolate (i : interpolation) (offset : Q) (out : R) : Prop :=
  exists p, progress (domain i) offset = Some p /\
            lerp_with_easing (easing i) (fst (outputRange i))
                             (snd (outputRange i)) p out.

(** The sample of the banner at an offset: the two interpolations that
    [render] puts into the banner style, read as the spec reads them. *)
Definition mapScrollOffset (offset tileWidth : Q) (s : AnimationSample) : Prop :=
  interpolate (opacityInterpolation tileWidth) offset (opacity s) /\
  interpolate (translateXInterpolation tileWidth) offset (translateX s).

(** One of the two interpolations divides by zero at this offset. *)
Definition divisionFault (offset tileWidth : Q) : Prop :=
  progress (domain (opacityInterpolation tileWidth)) offset = None \/
  progress (domain (translateXInterpolation tileWidth)) offset = None.

(** What the banner of an instance shows: the sample at the current value
    of [animatedValueScroll]. *)
Definition displayedSample (c : CarouselImage) (s : AnimationSample) : Prop :=
  mapScrollOffset (animatedValueScroll c) (itemWidth (state c)) s.

(** The sample of a banner at rest. *)
Definition restingSample : AnimationSample :=
  {| opacity := 1; translateX := 0 |}.

(** The sample the spec gives for the end of the domain. *)
Definition domainMaxSample (tileWidth : Q) : AnimationSample :=
  {| opacity := 0.05; translateX := - 0.25 * Q2R tileWidth |}.

(** The two coordinates of the banner's easing curve, expanded. *)
Definition curveX (t : R) : R := (1.74 * (t * t) - 0.74 * (t * t * t))%R.

Definition curveY (t : R) : R := (3 * (t * t) - 2 * (t * t * t))%R.

(** ** Sample configurations *)

(** Props with no items and no banner, for the layout computation. *)
Definition layoutProps (n : Q) (g : option Q) : CarouselImageProps :=
  {| Props.data := []; Props.numColumns := n; Props.gap := g;
     Props.image := None; Props.rounded := false; Props.renderContent := None |}.

Definition sampleTheme : Theme :=
  {| paddingSmall := 8; colorLine := "#cccccc"; lineWidth := 1 |}.

Definition sampleBanner : ImageProps :=
  {| source := "banner.png"; style := Some {[ "width" := SNum 10 ]} |}.

Definition sampleItems : list CarouselImageItem :=
  [ {| Item.key := "a";
       Item.image := {| source := "a.png";
                        style := Some {[ "width" := SNum 10; "height" := SNum 20 ]} |} |};
    {| Item.key := "b";
       Item.image := {| source := "b.png"; style := None |} |} ].

Definition sampleProps (g : option Q) (img : option ImageProps) : CarouselImageProps :=
  {| Props.data := sampleItems; Props.numColumns := 3; Props.gap := g;
     Props.image := img; Props.rounded := true; Props.renderContent := None |}.

(** An instance of the sample props after a first layout report of 300. *)
Definition laidOut (g : option Q) (img : option ImageProps) : CarouselImage :=
  onLayout (initialInstance (sampleProps g img) 360) 300.

(** ** Notifications, children and style keys *)

(** The gap the component computes with: [this.props.gap || GAP_DEFAULT]. *)
Definition effectiveGap (p : CarouselImageProps) : Q :=
  or_default (Props.gap p) GAP_DEFAULT.

(** The two notifications an instance reacts to. *)
Inductive event :=
| LayoutEvent (w : Q)
| ScrollEvent (evt : option Q).

(** The handler a notification reaches. *)
Definition handle (c : CarouselImage) (e : event) : CarouselImage :=
  match e with
  | LayoutEvent w => onLayout c w
  | ScrollEvent evt => onScroll c evt
  end.

(** Notifications are handled one after the other. *)
Definition run (c : CarouselImage) (es : list event) : CarouselImage :=
  fold_left handle es c.

(** The width of a layout notification. *)
Definition layoutWidth (e : event) : option Q :=
  match e with LayoutEvent w => Some w | ScrollEvent _ => None end.

(** The width reported last in a run of notifications, if any. *)
Definition lastLayout (es : list event) : option Q :=
  List.last (map Some (omap layoutWidth es)) None.

(** The animated value lies at or below the end of the animation domain. *)
Definition withinDomain (c : CarouselImage) : Prop :=
  animatedValueScroll c <= itemWidth (state c) * 2.

(** The React key of a child of the carousel. *)
Definition childKey (ch : CarouselChild) : string :=
  match ch with
  | Spacer k _ => k
  | Tile t => tile_key t
  end.

(** The empty [View] put before the items when there is a banner. *)
Definition leadingSpacer (iw : Q) : CarouselChild :=
  Spacer "__-1" {[ "width" := SNum (iw * 2) ]}.

(** The empty [View] put after the items; [n] is [data.length]. *)
Definition trailingSpacer (n : nat) (iw : Q) : CarouselChild :=
  Spacer ("_" +:+ pretty n) {[ "width" := SNum iw ]}.

(** What an image descriptor's own style says about a key. *)
Definition ownStyle (img : ImageProps) (k : string) : option style_value :=
  match style img with
  | Some s => s !! k
  | None => None
  end.

(** The style keys the component sets on the banner. *)
Definition bannerKeys : list string :=
  ["position"; "left"; "top"; "height"; "resizeMode"; "width"; "opacity";
   "transform"].

(** The style keys the component sets on every item image. *)
Definition tileKeys : list string := ["width"; "height"; "marginBottom"].

(** The style keys the component adds to an item image for [rounded]. *)
Definition roundedKeys : list string :=
  ["borderRadius"; "borderColor"; "borderWidth"].

(** * Properties *)

(** ** Rounding and the fallback *)

Lemma Math_round_nearest (x : Q) :
  nearest_integer x (Qfloor (x + (1 # 2))).
Proof.
  unfold nearest_integer.
  pose proof (Qfloor_le (x + (1 # 2))) as Hlo.
  pose proof (Qlt_floor (x + (1 # 2))) as Hhi.
  rewrite inject_Z_plus in Hhi.
  change (inject_Z 1) with 1 in Hhi.
  split; lra.
Qed.

Lemma nearest_integer_unique (x : Q) (k k' : Z) :
  nearest_integer x k -> nearest_integer x k' -> k = k'.
Proof.
  unfold nearest_integer. intros [H1 H2] [H3 H4].
  assert (Hlt : inject_Z k < inject_Z k' + 1) by lra.
  assert (Hlt' : inject_Z k' < inject_Z k + 1) by lra.
  change 1 with (inject_Z 1) in Hlt, Hlt'.
  rewrite <- inject_Z_plus in Hlt, Hlt'.
  rewrite <- Zlt_Qlt in Hlt, Hlt'. lia.
Qed.

Lemma Math_round_mono (x y : Q) : x <= y -> Math_round x <= Math_round y.
Proof.
  intros H. unfold Math_round. rewrite <- Zle_Qle.
  apply Qfloor_resp_le. lra.
Qed.

Lemma Math_round_comp (x y : Q) : x == y -> Math_round x = Math_round y.
Proof.
  intros H. unfold Math_round. f_equal.
  apply Qfloor_comp. rewrite H. reflexivity.
Qed.

Lemma truthy_false_iff (x : Q) : truthy x = false <-> x == 0.
Proof.
  unfold truthy. rewrite negb_false_iff. apply Qeq_bool_iff.
Qed.

Lemma truthy_true_iff (x : Q) : truthy x = true <-> ~ x == 0.
Proof.
  unfold truthy. rewrite negb_true_iff. split.
  - apply Qeq_bool_neq.
  - intros H. destruct (Qeq_bool x 0) eqn:E; [|reflexivity].
    apply Qeq_bool_iff in E. contradiction.
Qed.

Lemma or_default_zero (g d : Q) : g == 0 -> or_default (Some g) d = d.
Proof.
  intros H. unfold or_default.
  apply truthy_false_iff in H. rewrite H. reflexivity.
Qed.

Lemma or_default_nonzero (g d : Q) : ~ g == 0 -> or_default (Some g) d = g.
Proof.
  intros H. unfold or_default.
  apply truthy_true_iff in H. rewrite H. reflexivity.
Qed.

(** ** The tile width *)

Lemma computeTileWidth_gap (p : CarouselImageProps) (w g : Q) :
  Props.gap p = Some g -> ~ g == 0 ->
  computeTileWidth p w =
  Math_round ((w - Props.numColumns p * g) / (Props.numColumns p + 0.25)).
Proof.
  intros Hg Hnz. unfold computeTileWidth. rewrite Hg.
  rewrite or_default_nonzero by exact Hnz. reflexivity.
Qed.

Lemma computeTileWidth_default (p : CarouselImageProps) (w g : Q) :
  Props.gap p = Some g -> g == 0 ->
  computeTileWidth p w =
  Math_round ((w - Props.numColumns p * GAP_DEFAULT) / (Props.numColumns p + 0.25)).
Proof.
  intros Hg Hz. unfold computeTileWidth. rewrite Hg.
  rewrite or_default_zero by exact Hz. reflexivity.
Qed.

(** C1 (amended): for every container width w, positive integer column
    count n and positive gap g, the tile width stored by [onLayout] is the
    integer nearest to (w - n * g) / (n + 0.25), the upper one on a tie;
    for w = 300, n = 3, g = 6 it is 87. *)
Theorem onLayout_tile_width (c : CarouselImage) (w g : Q) (n : Z) :
  Props.numColumns (props c) = inject_Z n ->
  Props.gap (props c) = Some g ->
  (0 < n)%Z -> 0 < g ->
  (exists k, itemWidth (state (onLayout c w)) = inject_Z k /\
             nearest_integer ((w - inject_Z n * g) / (inject_Z n + 0.25)) k) /\
  (w == 300 -> n = 3%Z -> g == 6 -> itemWidth (state (onLayout c w)) = 87).
Proof.
  intros Hn Hg Hpos Hgpos.
  assert (E : itemWidth (state (onLayout c w)) =
              Math_round ((w - inject_Z n * g) / (inject_Z n + 0.25))).
  { simpl. rewrite (computeTileWidth_gap _ w g Hg) by lra.
    rewrite Hn. reflexivity. }
  split.
  - exists (Qfloor ((w - inject_Z n * g) / (inject_Z n + 0.25) + (1 # 2))).
    split; [exact E | apply Math_round_nearest].
  - intros Hw -> H6. rewrite E.
    rewrite (Math_round_comp _ ((300 - 3 * 6) / (3 + 0.25))).
    + reflexivity.
    + rewrite Hw, H6. reflexivity.
Qed.

Lemma onLayout_tile_width_witness :
  let c := initialInstance (layoutProps 3 (Some 6)) 360 in
  (0 < 3)%Z /\ 0 < 6 /\
  (exists k, itemWidth (state (onLayout c 300)) = inject_Z k /\
             nearest_integer ((300 - inject_Z 3 * 6) / (inject_Z 3 + 0.25)) k) /\
  (300 == 300 -> 3%Z = 3%Z -> 6 == 6 -> itemWidth (state (onLayout c 300)) = 87).
Proof.
  split; [lia | split; [reflexivity |]].
  apply (onLayout_tile_width (initialInstance (layoutProps 3 (Some 6)) 360) 300 6 3);
    [reflexivity | reflexivity | lia | reflexivity].
Defined.

(** C1 as stated fails at gap 0: with w = 300 and n = 3 the component
    stores 87, while (300 - 3 * 0) / 3.25 rounds to 92. *)
Lemma zero_gap_breaks_formula :
  let c := initialInstance (layoutProps 3 (Some 0)) 360 in
  itemWidth (state (onLayout c 300)) = 87 /\
  nearest_integer ((300 - 3 * 0) / (3 + 0.25)) 92 /\
  ~ nearest_integer ((300 - 3 * 0) / (3 + 0.25)) 87.
Proof.
  split; [reflexivity |]. split.
  - unfold nearest_integer. split; [intro H; discriminate H | reflexivity].
  - unfold nearest_integer. intros [_ H]. discriminate H.
Qed.

Lemma quotient_antitone (w n g1 g2 : Q) :
  0 < n -> g1 <= g2 ->
  (w - n * g2) / (n + 0.25) <= (w - n * g1) / (n + 0.25).
Proof.
  intros Hn Hg.
  assert (Hd : 0 < / (n + 0.25)) by (apply Qinv_lt_0_compat; lra).
  unfold Qdiv. apply Qmult_le_compat_r; [| lra].
  assert (n * g1 <= n * g2) by (apply Qmult_le_l; assumption).
  lra.
Qed.

Lemma computeTileWidth_antitone (p1 p2 : CarouselImageProps) (w : Q) (n : Z) :
  Props.numColumns p1 = inject_Z n -> Props.numColumns p2 = inject_Z n ->
  (0 < n)%Z ->
  or_default (Props.gap p1) GAP_DEFAULT <= or_default (Props.gap p2) GAP_DEFAULT ->
  computeTileWidth p2 w <= computeTileWidth p1 w.
Proof.
  intros H1 H2 Hn Hg. unfold computeTileWidth. rewrite H1, H2.
  apply Math_round_mono, quotient_antitone; [| exact Hg].
  change 0 with (inject_Z 0). rewrite <- Zlt_Qlt. exact Hn.
Qed.

(** C8 (amended): for every width and positive integer column count, the
    tile width does not grow with the gap over positive gaps; a supplied
    gap of 0 is computed as the default 6, so its tile width is at least
    that of a gap g when g is 0 or g >= 6. *)
Theorem tile_width_gap_monotone (p1 p2 : CarouselImageProps) (w g1 g2 : Q) (n : Z) :
  Props.numColumns p1 = inject_Z n -> Props.numColumns p2 = inject_Z n ->
  Props.gap p1 = Some g1 -> Props.gap p2 = Some g2 ->
  (0 < n)%Z ->
  (0 < g1 -> g1 <= g2 -> computeTileWidth p2 w <= computeTileWidth p1 w) /\
  (g1 == 0 -> g2 == 0 \/ GAP_DEFAULT <= g2 ->
   computeTileWidth p2 w <= computeTileWidth p1 w).
Proof.
  intros H1 H2 G1 G2 Hn. split.
  - intros Hpos Hle.
    apply (computeTileWidth_antitone p1 p2 w n H1 H2 Hn).
    rewrite G1, G2, !or_default_nonzero by lra. exact Hle.
  - intros Hz Hor.
    apply (computeTileWidth_antitone p1 p2 w n H1 H2 Hn).
    rewrite G1, G2, (or_default_zero g1) by exact Hz.
    destruct Hor as [Hz2 | Hge].
    + rewrite or_default_zero by exact Hz2. lra.
    + rewrite or_default_nonzero; [exact Hge |].
      unfold GAP_DEFAULT in Hge. lra.
Qed.

Lemma tile_width_gap_monotone_witness :
  (0 < 3)%Z /\ 0 < 6 /\ 6 <= 10 /\
  computeTileWidth (layoutProps 3 (Some 10)) 300
  <= computeTileWidth (layoutProps 3 (Some 6)) 300 /\
  computeTileWidth (layoutProps 3 (Some 10)) 300
  <= computeTileWidth (layoutProps 3 (Some 0)) 300.
Proof.
  split; [lia |]. split; [lra |]. split; [lra |]. split.
  - refine (proj1 (tile_width_gap_monotone (layoutProps 3 (Some 6))
                     (layoutProps 3 (Some 10)) 300 6 10 3
                     eq_refl eq_refl eq_refl eq_refl _) _ _); [lia | lra | lra].
  - refine (proj2 (tile_width_gap_monotone (layoutProps 3 (Some 0))
                     (layoutProps 3 (Some 10)) 300 0 10 3
                     eq_refl eq_refl eq_refl eq_refl _) _ _);
      [lia | lra | right; unfold GAP_DEFAULT; lra].
Defined.

(** C8 as stated fails at w = 300, n = 3, g = 1: gap 0 gives 87, gap 1
    gives 91. *)
Lemma zero_gap_not_widest :
  computeTileWidth (layoutProps 3 (Some 0)) 300 = 87 /\
  computeTileWidth (layoutProps 3 (Some 1)) 300 = 91 /\
  ~ computeTileWidth (layoutProps 3 (Some 1)) 300
    <= computeTileWidth (layoutProps 3 (Some 0)) 300.
Proof.
  split; [reflexivity |]. split; [reflexivity |].
  intros H. apply H. reflexivity.
Qed.

(** ** The easing curve of the banner *)

Section Curve.
Local Open Scope R_scope.

Lemma banner_curve_x (t : R) :
  bezierCoordinate (Q2R (cx1 bannerEasing)) (Q2R (cx2 bannerEasing)) t = curveX t.
Proof. unfold bezierCoordinate, bannerEasing, curveX, Q2R. simpl. field. Qed.

Lemma banner_curve_y (t : R) :
  bezierCoordinate (Q2R (cy1 bannerEasing)) (Q2R (cy2 bannerEasing)) t = curveY t.
Proof. unfold bezierCoordinate, bannerEasing, curveY, Q2R. simpl. field. Qed.

Lemma curveX_increasing (t1 t2 : R) :
  0 <= t1 -> t1 < t2 -> t2 <= 1 -> curveX t1 < curveX t2.
Proof.
  intros H0 Hlt H1. unfold curveX.
  assert (A : 0 <= t1 * (1 - t1)) by (apply Rmult_le_pos; rlra).
  assert (B : 0 <= t2 * (1 - t2)) by (apply Rmult_le_pos; rlra).
  assert (C : 0 <= t1 * (1 - t2)) by (apply Rmult_le_pos; rlra).
  assert (D : 0 <= t2 * (1 - t1)) by (apply Rmult_le_pos; rlra).
  assert (P : 0 < (t2 - t1)
                  * (1.74 * (t1 + t2) - 0.74 * (t1 * t1 + t1 * t2 + t2 * t2))).
  { apply Rmult_lt_0_compat; rlra. }
  rlra.
Qed.

Lemma curveY_monotone (t1 t2 : R) :
  0 <= t1 -> t1 <= t2 -> t2 <= 1 -> curveY t1 <= curveY t2.
Proof.
  intros H0 Hle H1. unfold curveY.
  assert (A : 0 <= t1 * (1 - t1)) by (apply Rmult_le_pos; rlra).
  assert (B : 0 <= t2 * (1 - t2)) by (apply Rmult_le_pos; rlra).
  assert (C : 0 <= t1 * (1 - t2)) by (apply Rmult_le_pos; rlra).
  assert (D : 0 <= t2 * (1 - t1)) by (apply Rmult_le_pos; rlra).
  assert (P : 0 <= (t2 - t1)
                   * (2 * (t1 * (1 - t1)) + 2 * (t2 * (1 - t2))
                      + t1 * (1 - t2) + t2 * (1 - t1))).
  { apply Rmult_le_pos; rlra. }
  rlra.
Qed.

Lemma curveX_continuous (p : R) : continuity (fun t => curveX t - p).
Proof. unfold curveX. reg. Qed.

(** The curve reaches every progress between 0 and 1. *)
Lemma curveX_onto (p : R) :
  0 <= p <= 1 -> exists t, 0 <= t <= 1 /\ curveX t = p.
Proof.
  intros [Hlo Hhi].
  destruct (IVT_cor (fun t => curveX t - p) 0 1 (curveX_continuous p))
    as (t & Ht & Hz).
  - rlra.
  - assert (E0 : curveX 0 - p = - p) by (unfold curveX; rlra).
    assert (E1 : curveX 1 - p = 1 - p) by (unfold curveX; rlra).
    rewrite E0, E1.
    assert (0 <= p * (1 - p)) by (apply Rmult_le_pos; rlra). rlra.
  - exists t. split; [exact Ht | rlra].
Qed.

Lemma eases_curve (p v : R) :
  eases bannerEasing p v <->
  exists t, 0 <= t <= 1 /\ curveX t = p /\ curveY t = v.
Proof.
  unfold eases. split; intros (t & Ht & Hx & Hy); exists t;
    rewrite banner_curve_x, banner_curve_y in *; auto.
Qed.

Lemma eases_monotone (p1 p2 v1 v2 : R) :
  eases bannerEasing p1 v1 -> eases bannerEasing p2 v2 ->
  p1 <= p2 -> v1 <= v2.
Proof.
  rewrite !eases_curve.
  intros (t1 & [L1 U1] & X1 & Y1) (t2 & [L2 U2] & X2 & Y2) Hp.
  destruct (Rlt_le_dec t2 t1) as [Hlt | Hle].
  - pose proof (curveX_increasing t2 t1 L2 Hlt U1). rlra.
  - pose proof (curveY_monotone t1 t2 L1 Hle U2). rlra.
Qed.

Lemma eases_functional (p v1 v2 : R) :
  eases bannerEasing p v1 -> eases bannerEasing p v2 -> v1 = v2.
Proof.
  intros H1 H2. apply Rle_antisym.
  - apply (eases_monotone p p); auto. rlra.
  - apply (eases_monotone p p); auto. rlra.
Qed.

Lemma eases_total (p : R) :
  0 <= p <= 1 -> exists v, eases bannerEasing p v.
Proof.
  intros Hp. destruct (curveX_onto p Hp) as (t & Ht & Hx).
  exists (curveY t). apply eases_curve. exists t. auto.
Qed.

Lemma eases_start : eases bannerEasing 0 0.
Proof.
  apply eases_curve. exists 0. unfold curveX, curveY.
  repeat split; rlra.
Qed.

Lemma eases_end : eases bannerEasing 1 1.
Proof.
  apply eases_curve. exists 1. unfold curveX, curveY.
  repeat split; rlra.
Qed.

End Curve.

(** ** Progress *)

Lemma clamp_cases (lo hi x : Q) :
  (x <= lo /\ clamp lo hi x = lo) \/
  (lo < x /\ hi <= x /\ clamp lo hi x = hi) \/
  (lo < x /\ x < hi /\ clamp lo hi x = x).
Proof.
  unfold clamp.
  destruct (Qle_bool x lo) eqn:E1.
  - left. apply Qle_bool_iff in E1. auto.
  - assert (lo < x).
    { apply Qnot_le_lt. intros H. apply Qle_bool_iff in H. congruence. }
    destruct (Qle_bool hi x) eqn:E2.
    + right. left. apply Qle_bool_iff in E2. auto.
    + right. right. repeat split; auto.
      apply Qnot_le_lt. intros H'. apply Qle_bool_iff in H'. congruence.
Qed.

Lemma clamp_monotone (lo hi x1 x2 : Q) :
  lo <= hi -> x1 <= x2 -> clamp lo hi x1 <= clamp lo hi x2.
Proof.
  intros Hd H12.
  destruct (clamp_cases lo hi x1) as [[? ->] | [(? & ? & ->) | (? & ? & ->)]];
    destruct (clamp_cases lo hi x2) as [[? ->] | [(? & ? & ->) | (? & ? & ->)]];
    lra.
Qed.

Lemma progress_flat (d : AnimationDomain) (x : Q) :
  dom_max d == 0 -> progress d x = Some 0.
Proof.
  intros H. unfold progress. apply Qeq_bool_iff in H. rewrite H. reflexivity.
Qed.

Lemma progress_steep (d : AnimationDomain) (x : Q) :
  ~ dom_max d == 0 ->
  progress d x = Some (clamp (dom_min d) (dom_max d) x / dom_max d).
Proof.
  intros H. unfold progress, checkedDivide.
  destruct (Qeq_bool (dom_max d) 0) eqn:E; [| reflexivity].
  apply Qeq_bool_iff in E. contradiction.
Qed.

(** The progress is always defined and lies between 0 and 1. *)
Lemma progress_unit (hi x : Q) :
  exists p, progress {| dom_min := 0; dom_max := hi |} x = Some p /\
            0 <= p /\ p <= 1.
Proof.
  destruct (Qeq_dec hi 0) as [Hz | Hnz].
  - exists 0. split; [apply progress_flat; exact Hz | lra].
  - eexists. split; [apply progress_steep; exact Hnz |]. simpl.
    destruct (clamp_cases 0 hi x) as [[? ->] | [(? & ? & ->) | (? & ? & ->)]].
    + assert (E : 0 / hi == 0) by (field; exact Hnz). rewrite E. lra.
    + assert (E : hi / hi == 1) by (field; exact Hnz). rewrite E. lra.
    + split.
      * apply Qle_shift_div_l; lra.
      * apply Qle_shift_div_r; lra.
Qed.

Lemma progress_start (hi x p : Q) :
  x == 0 -> progress {| dom_min := 0; dom_max := hi |} x = Some p -> p == 0.
Proof.
  intros Hx Hp. destruct (Qeq_dec hi 0) as [Hz | Hnz].
  - rewrite progress_flat in Hp by exact Hz. injection Hp as <-. reflexivity.
  - rewrite progress_steep in Hp by exact Hnz. injection Hp as <-. simpl.
    destruct (clamp_cases 0 hi x) as [[? ->] | [(? & ? & ->) | (? & ? & ->)]];
      try lra.
    field. exact Hnz.
Qed.

Lemma progress_end (hi x p : Q) :
  0 < hi -> x == hi ->
  progress {| dom_min := 0; dom_max := hi |} x = Some p -> p == 1.
Proof.
  intros Hpos Hx Hp.
  rewrite progress_steep in Hp by (simpl; lra). injection Hp as <-. simpl.
  destruct (clamp_cases 0 hi x) as [[? ->] | [(? & ? & ->) | (? & ? & ->)]];
    try lra.
  field. lra.
Qed.

Lemma progress_monotone (hi x1 x2 p1 p2 : Q) :
  0 < hi -> x1 <= x2 ->
  progress {| dom_min := 0; dom_max := hi |} x1 = Some p1 ->
  progress {| dom_min := 0; dom_max := hi |} x2 = Some p2 ->
  p1 <= p2.
Proof.
  intros Hpos H12 H1 H2.
  rewrite progress_steep in H1, H2 by (simpl; lra).
  injection H1 as <-. injection H2 as <-. simpl.
  unfold Qdiv. apply Qmult_le_compat_r.
  - apply clamp_monotone; lra.
  - apply Qlt_le_weak, Qinv_lt_0_compat. exact Hpos.
Qed.

(** ** Interpolations that ease with the banner curve *)

Section BannerInterpolation.
Variable i : interpolation.
Variables hi from to : Q.
Hypothesis Hin : inputRange i = (0, hi).
Hypothesis Hout : outputRange i = (from, to).
Hypothesis Heasing : easing i = bannerEasing.

Lemma interpolate_unfold (x : Q) (out : R) :
  interpolate i x out <->
  exists p v, progress {| dom_min := 0; dom_max := hi |} x = Some p /\
              eases bannerEasing (Q2R p) v /\
              out = (Q2R from + (Q2R to - Q2R from) * v)%R.
Proof using Hin Hout Heasing.
  unfold interpolate, lerp_with_easing, domain.
  rewrite Hin, Hout, Heasing. simpl. split.
  - intros (p & Hp & v & Hv & Ho). exists p, v. auto.
  - intros (p & v & Hp & Hv & Ho). exists p. split; [exact Hp |].
    exists v. auto.
Qed.

Lemma interpolate_total (x : Q) : exists out, interpolate i x out.
Proof using Hin Hout Heasing.
  destruct (progress_unit hi x) as (p & Hp & Hlo & Hhi).
  destruct (eases_total (Q2R p)) as [v Hv].
  - split; [replace 0%R with (Q2R 0) by (unfold Q2R; simpl; rlra)
           | replace 1%R with (Q2R 1) by (unfold Q2R; simpl; rlra)];
      apply Qle_Rle; assumption.
  - eexists. apply interpolate_unfold. exists p, v. auto.
Qed.

Lemma interpolate_functional (x : Q) (out1 out2 : R) :
  interpolate i x out1 -> interpolate i x out2 -> out1 = out2.
Proof using Hin Hout Heasing.
  rewrite !interpolate_unfold.
  intros (p1 & v1 & Hp1 & Hv1 & ->) (p2 & v2 & Hp2 & Hv2 & ->).
  rewrite Hp1 in Hp2. injection Hp2 as <-.
  rewrite (eases_functional _ _ _ Hv1 Hv2). reflexivity.
Qed.

Lemma interpolate_start (x : Q) (out : R) :
  hi == 0 \/ x == 0 -> (interpolate i x out <-> out = Q2R from).
Proof using Hin Hout Heasing.
  intros Hx.
  assert (H0 : interpolate i x (Q2R from)).
  { apply interpolate_unfold.
    destruct (progress_unit hi x) as (p & Hp & _).
    assert (Hpz : p == 0).
    { destruct Hx as [Hz | Hx].
      - rewrite progress_flat in Hp by exact Hz. injection Hp as <-. reflexivity.
      - apply (progress_start hi x p Hx Hp). }
    exists p, 0%R. split; [exact Hp |]. split; [| rlra].
    rewrite (Qeq_eqR _ _ Hpz). replace (Q2R 0) with 0%R by (unfold Q2R; simpl; rlra).
    apply eases_start. }
  split.
  - intros H. apply (interpolate_functional x out (Q2R from) H H0).
  - intros ->. exact H0.
Qed.

Lemma interpolate_end (x : Q) (out : R) :
  0 < hi -> x == hi -> (interpolate i x out <-> out = Q2R to).
Proof using Hin Hout Heasing.
  intros Hpos Hx.
  assert (H1 : interpolate i x (Q2R to)).
  { apply interpolate_unfold.
    destruct (progress_unit hi x) as (p & Hp & _).
    pose proof (progress_end hi x p Hpos Hx Hp) as Hp1.
    exists p, 1%R. split; [exact Hp |]. split; [| rlra].
    rewrite (Qeq_eqR _ _ Hp1). replace (Q2R 1) with 1%R by (unfold Q2R; simpl; rlra).
    apply eases_end. }
  split.
  - intros H. apply (interpolate_functional x out (Q2R to) H H1).
  - intros ->. exact H1.
Qed.

Lemma interpolate_decreasing (x1 x2 : Q) (out1 out2 : R) :
  0 < hi -> to <= from -> x1 <= x2 ->
  interpolate i x1 out1 -> interpolate i x2 out2 -> (out2 <= out1)%R.
Proof using Hin Hout Heasing.
  intros Hpos Hft H12. rewrite !interpolate_unfold.
  intros (p1 & v1 & Hp1 & Hv1 & ->) (p2 & v2 & Hp2 & Hv2 & ->).
  pose proof (progress_monotone hi x1 x2 p1 p2 Hpos H12 Hp1 Hp2) as Hp.
  apply Qle_Rle in Hp. apply Qle_Rle in Hft.
  pose proof (eases_monotone _ _ _ _ Hv1 Hv2 Hp) as Hv.
  assert (0 <= (Q2R from - Q2R to) * (v2 - v1))%R
    by (apply Rmult_le_pos; rlra).
  rlra.
Qed.

End BannerInterpolation.

(** ** Samples of the banner *)

Lemma Q2R_quarter_width (tw : Q) : Q2R (- (tw * 0.25)) = (- 0.25 * Q2R tw)%R.
Proof.
  rewrite Q2R_opp, Q2R_mult.
  replace (Q2R 0.25) with 0.25%R by (unfold Q2R; simpl; rlra). rlra.
Qed.

Lemma Q2R_one : Q2R 1 = 1%R.
Proof. unfold Q2R. simpl. rlra. Qed.

Lemma Q2R_zero : Q2R 0 = 0%R.
Proof. unfold Q2R. simpl. rlra. Qed.

Lemma sample_ext (s1 s2 : AnimationSample) :
  opacity s1 = opacity s2 -> translateX s1 = translateX s2 -> s1 = s2.
Proof. destruct s1, s2. simpl. intros -> ->. reflexivity. Qed.

Lemma mapScrollOffset_total (x tw : Q) : exists s, mapScrollOffset x tw s.
Proof.
  destruct (interpolate_total (opacityInterpolation tw) (tw * 2) 1 0.05
              eq_refl eq_refl eq_refl x) as [o Ho].
  destruct (interpolate_total (translateXInterpolation tw) (tw * 2) 0
              (- (tw * 0.25)) eq_refl eq_refl eq_refl x) as [t Ht].
  exists {| opacity := o; translateX := t |}. split; assumption.
Qed.

Lemma mapScrollOffset_functional (x tw : Q) (s1 s2 : AnimationSample) :
  mapScrollOffset x tw s1 -> mapScrollOffset x tw s2 -> s1 = s2.
Proof.
  intros [Ho1 Ht1] [Ho2 Ht2]. apply sample_ext.
  - apply (interpolate_functional (opacityInterpolation tw) (tw * 2) 1 0.05
             eq_refl eq_refl eq_refl x); assumption.
  - apply (interpolate_functional (translateXInterpolation tw) (tw * 2) 0
             (- (tw * 0.25)) eq_refl eq_refl eq_refl x); assumption.
Qed.

Lemma mapScrollOffset_never_faults (x tw : Q) : ~ divisionFault x tw.
Proof.
  destruct (progress_unit (tw * 2) x) as (p & Hp & _).
  unfold divisionFault, domain. simpl. rewrite Hp. intros [H | H]; discriminate H.
Qed.

Lemma sample_at_start (x tw : Q) (s : AnimationSample) :
  tw == 0 \/ x == 0 -> (mapScrollOffset x tw s <-> s = restingSample).
Proof.
  intros H.
  assert (H' : tw * 2 == 0 \/ x == 0) by (destruct H; [left | right]; lra).
  assert (R0 : mapScrollOffset x tw restingSample).
  { split; simpl.
    - apply (interpolate_start (opacityInterpolation tw) (tw * 2) 1 0.05
               eq_refl eq_refl eq_refl x _ H'). symmetry. apply Q2R_one.
    - apply (interpolate_start (translateXInterpolation tw) (tw * 2) 0
               (- (tw * 0.25)) eq_refl eq_refl eq_refl x _ H').
      symmetry. apply Q2R_zero. }
  split.
  - intros Hs. apply (mapScrollOffset_functional x tw s restingSample Hs R0).
  - intros ->. exact R0.
Qed.

Lemma sample_at_end (x tw : Q) (s : AnimationSample) :
  0 < tw -> x == tw * 2 -> (mapScrollOffset x tw s <-> s = domainMaxSample tw).
Proof.
  intros Hpos Hx.
  assert (Hhi : 0 < tw * 2) by lra.
  assert (R1 : mapScrollOffset x tw (domainMaxSample tw)).
  { split; simpl.
    - apply (interpolate_end (opacityInterpolation tw) (tw * 2) 1 0.05
               eq_refl eq_refl eq_refl x _ Hhi Hx). reflexivity.
    - apply (interpolate_end (translateXInterpolation tw) (tw * 2) 0
               (- (tw * 0.25)) eq_refl eq_refl eq_refl x _ Hhi Hx).
      symmetry. apply Q2R_quarter_width. }
  split.
  - intros Hs. apply (mapScrollOffset_functional x tw s _ Hs R1).
  - intros ->. exact R1.
Qed.

(** Every point of the curve is a sample. *)
Lemma sample_on_curve (tw x : Q) (t : R) :
  0 < tw -> (0 <= t <= 1)%R -> Q2R x = (curveX t * (2 * Q2R tw))%R ->
  mapScrollOffset x tw
    {| opacity := 1 + (0.05 - 1) * curveY t;
       translateX := - 0.25 * Q2R tw * curveY t |}.
Proof.
  intros Hpos Ht Hx.
  assert (Hhi : 0 < tw * 2) by lra.
  pose proof (Qlt_Rlt _ _ Hhi) as HhiR. rewrite Q2R_zero in HhiR.
  assert (E2 : Q2R (tw * 2) = (2 * Q2R tw)%R).
  { rewrite Q2R_mult. unfold Q2R at 2. simpl. rlra. }
  rewrite <- E2 in Hx.
  destruct (progress_unit (tw * 2) x) as (p & Hp & _).
  assert (Hpx : Q2R p = curveX t).
  { assert (X0 : (0 <= curveX t)%R).
    { destruct (Rle_lt_or_eq_dec 0 t (proj1 Ht)) as [Hlt | <-].
      - pose proof (curveX_increasing 0 t (Rle_refl 0) Hlt (proj2 Ht)) as H.
        unfold curveX in *. rlra.
      - unfold curveX. rlra. }
    assert (X1 : (curveX t <= 1)%R).
    { destruct (Rle_lt_or_eq_dec t 1 (proj2 Ht)) as [Hlt | ->].
      - pose proof (curveX_increasing t 1 (proj1 Ht) Hlt (Rle_refl 1)) as H.
        unfold curveX in *. rlra.
      - unfold curveX. rlra. }
    assert (Hx0 : 0 <= x).
    { apply Rle_Qle. rewrite Q2R_zero, Hx. apply Rmult_le_pos; rlra. }
    assert (Hx1 : x <= tw * 2).
    { apply Rle_Qle. rewrite Hx.
      assert (0 <= (1 - curveX t) * Q2R (tw * 2))%R by (apply Rmult_le_pos; rlra).
      rlra. }
    rewrite progress_steep in Hp by (simpl; lra). injection Hp as <-. simpl.
    assert (E : clamp 0 (tw * 2) x / (tw * 2) == x / (tw * 2)).
    { destruct (clamp_cases 0 (tw * 2) x) as [[? ->] | [(? & ? & ->) | (? & ? & ->)]].
      - assert (Hz : x == 0) by lra. rewrite Hz. reflexivity.
      - assert (Hz : x == tw * 2) by lra. rewrite Hz. reflexivity.
      - reflexivity. }
    rewrite (Qeq_eqR _ _ E), Q2R_div by lra. rewrite Hx. field. rlra. }
  split; simpl.
  - apply (interpolate_unfold (opacityInterpolation tw) (tw * 2) 1 0.05
             eq_refl eq_refl eq_refl).
    exists p, (curveY t). split; [exact Hp |]. split.
    + apply eases_curve. exists t. rewrite Hpx. auto.
    + rewrite Q2R_one. reflexivity.
  - apply (interpolate_unfold (translateXInterpolation tw) (tw * 2) 0
             (- (tw * 0.25)) eq_refl eq_refl eq_refl).
    exists p, (curveY t). split; [exact Hp |]. split.
    + apply eases_curve. exists t. rewrite Hpx. auto.
    + rewrite Q2R_zero, Q2R_quarter_width. rlra.
Qed.

(** At tile width 100 the offset 68.5 is reached at the curve parameter
    1/2, where the eased progress is 1/2. *)
Lemma sample_mid_curve :
  mapScrollOffset 68.5 100 {| opacity := 0.525; translateX := - 12.5 |}.
Proof.
  assert (H : mapScrollOffset 68.5 100
                {| opacity := 1 + (0.05 - 1) * curveY 0.5;
                   translateX := - 0.25 * Q2R 100 * curveY 0.5 |}).
  { apply sample_on_curve; [reflexivity | rlra |].
    unfold curveX, Q2R. simpl. rlra. }
  replace {| opacity := 0.525; translateX := - 12.5 |}
    with {| opacity := 1 + (0.05 - 1) * curveY 0.5;
            translateX := - 0.25 * Q2R 100 * curveY 0.5 |}; [exact H |].
  apply sample_ext; simpl; unfold curveY, Q2R; simpl; rlra.
Qed.

(** ** The ends of the domain and monotonicity *)

(** C5: for a positive tile width the sample at offset 0 is opacity 1 and
    translateX 0, and the sample at offset 2 * tileWidth is opacity 0.05
    and translateX -0.25 * tileWidth; each is the only sample there. *)
Theorem sample_at_domain_ends (tw : Q) :
  0 < tw ->
  (forall s, mapScrollOffset 0 tw s <-> s = restingSample) /\
  (forall s, mapScrollOffset (2 * tw) tw s <->
             s = {| opacity := 0.05; translateX := - 0.25 * Q2R tw |}).
Proof.
  intros Hpos. split; intros s.
  - apply sample_at_start. right. reflexivity.
  - apply (sample_at_end (2 * tw) tw s Hpos). ring.
Qed.

Lemma sample_at_domain_ends_witness :
  0 < 87 /\
  (forall s, mapScrollOffset 0 87 s <-> s = restingSample) /\
  (forall s, mapScrollOffset (2 * 87) 87 s <->
             s = {| opacity := 0.05; translateX := - 0.25 * Q2R 87 |}).
Proof.
  split; [reflexivity |].
  apply (sample_at_domain_ends 87). reflexivity.
Defined.

(** C6: for a positive tile width and offsets x1 <= x2 inside the domain,
    both offsets have a sample, and the opacity and the translateX at x2
    are at most those at x1; both interpolations ease with the cubic
    Bézier curve of control points (0,0), (0,0), (0.58,1), (1,1). *)
Theorem sample_monotone (tw x1 x2 : Q) :
  0 < tw -> 0 <= x1 -> x1 <= x2 -> x2 <= 2 * tw ->
  (exists s1 s2, mapScrollOffset x1 tw s1 /\ mapScrollOffset x2 tw s2) /\
  (forall s1 s2,
      mapScrollOffset x1 tw s1 -> mapScrollOffset x2 tw s2 ->
      (opacity s2 <= opacity s1)%R /\ (translateX s2 <= translateX s1)%R) /\
  easing (opacityInterpolation tw) = Easing_bezier 0 0 0.58 1 /\
  easing (translateXInterpolation tw) = Easing_bezier 0 0 0.58 1.
Proof.
  intros Hpos H0 H12 Hmax. split; [| split; [| split; reflexivity]].
  - destruct (mapScrollOffset_total x1 tw) as [s1 H1].
    destruct (mapScrollOffset_total x2 tw) as [s2 H2].
    exists s1, s2. auto.
  - intros s1 s2 [Ho1 Ht1] [Ho2 Ht2]. split.
    + apply (interpolate_decreasing (opacityInterpolation tw) (tw * 2) 1 0.05
               eq_refl eq_refl eq_refl x1 x2); try assumption; lra.
    + apply (interpolate_decreasing (translateXInterpolation tw) (tw * 2) 0
               (- (tw * 0.25)) eq_refl eq_refl eq_refl x1 x2);
        try assumption; lra.
Qed.

Lemma sample_monotone_witness :
  0 < 100 /\ 0 <= 68.5 /\ 68.5 <= 200 /\ 200 <= 2 * 100 /\
  mapScrollOffset 68.5 100 {| opacity := 0.525; translateX := - 12.5 |} /\
  mapScrollOffset 200 100 {| opacity := 0.05; translateX := - 25 |} /\
  (0.05 <= 0.525)%R /\ (- 25 <= - 12.5)%R.
Proof.
  assert (M2 : mapScrollOffset 200 100
                 {| opacity := 0.05; translateX := - 25 |}).
  { apply sample_at_end; [reflexivity | reflexivity |].
    apply sample_ext; simpl; unfold Q2R; simpl; rlra. }
  assert (H0 : 0 < 100) by reflexivity.
  assert (H1 : 0 <= 68.5) by discriminate.
  assert (H2 : 68.5 <= 200) by discriminate.
  assert (H3 : 200 <= 2 * 100) by discriminate.
  split; [exact H0 |]. split; [exact H1 |]. split; [exact H2 |].
  split; [exact H3 |]. split; [exact sample_mid_curve |]. split; [exact M2 |].
  exact (proj1 (proj2 (sample_monotone 100 68.5 200 H0 H1 H2 H3))
           _ _ sample_mid_curve M2).
Defined.

(** ** The scroll guard *)

Lemma onScroll_state (c : CarouselImage) (evt : option Q) :
  state (onScroll c evt) = state c /\ props (onScroll c evt) = props c.
Proof.
  unfold onScroll. destruct evt as [x |]; [| auto].
  destruct (Qle_bool x (itemWidth (state c) * 2)); auto.
Qed.

Lemma onScroll_forwarded (c : CarouselImage) (evt : option Q) :
  animatedValueScroll (onScroll c evt) =
  match forwarded (itemWidth (state c)) evt with
  | Some x => x
  | None => animatedValueScroll c
  end.
Proof.
  unfold onScroll, forwarded. destruct evt as [x |]; [| reflexivity].
  destruct (Qle_bool x (itemWidth (state c) * 2)); reflexivity.
Qed.

Lemma onScroll_beyond (c : CarouselImage) (x : Q) :
  itemWidth (state c) * 2 < x -> onScroll c (Some x) = c.
Proof.
  intros H. unfold onScroll.
  destruct (Qle_bool x (itemWidth (state c) * 2)) eqn:E; [| reflexivity].
  apply Qle_bool_iff in E. lra.
Qed.

Lemma onScroll_within (c : CarouselImage) (x : Q) :
  x <= itemWidth (state c) * 2 -> animatedValueScroll (onScroll c (Some x)) = x.
Proof.
  intros H. unfold onScroll. apply Qle_bool_iff in H. rewrite H. reflexivity.
Qed.

Lemma scroll_trace_state (evts : list (option Q)) (c : CarouselImage) :
  state (fold_left onScroll evts c) = state c.
Proof.
  revert c. induction evts as [| e evts IH]; intros c; simpl; [reflexivity |].
  rewrite IH. apply onScroll_state.
Qed.

Lemma scroll_trace_value (evts : list (option Q)) (c : CarouselImage) :
  animatedValueScroll (fold_left onScroll evts c) =
  List.last (omap (forwarded (itemWidth (state c))) evts) (animatedValueScroll c).
Proof.
  induction evts as [| e evts IH] using rev_ind; [reflexivity |].
  rewrite fold_left_app. simpl. rewrite onScroll_forwarded, scroll_trace_state.
  rewrite omap_app. simpl.
  destruct (forwarded (itemWidth (state c)) e) as [x |]; simpl.
  - rewrite last_last. reflexivity.
  - rewrite app_nil_r. exact IH.
Qed.

(** C3 (amended): an offset x beyond 2 * itemWidth leaves the instance,
    and so the displayed sample, unchanged; any later offset y that is at
    most 2 * itemWidth is forwarded again, whatever came in between; after
    any run of scroll events the animated value is the last forwarded
    offset, or the value before the run when none was forwarded. *)
Theorem scroll_guard_freezes_last_forwarded
    (c : CarouselImage) (x y : Q) (between : list (option Q)) :
  itemWidth (state c) * 2 < x ->
  y <= itemWidth (state c) * 2 ->
  onScroll c (Some x) = c /\
  (forall s, displayedSample (onScroll c (Some x)) s <-> displayedSample c s) /\
  animatedValueScroll
    (onScroll (fold_left onScroll between (onScroll c (Some x))) (Some y)) = y /\
  (forall evts,
      animatedValueScroll (fold_left onScroll evts c) =
      List.last (omap (forwarded (itemWidth (state c))) evts)
                (animatedValueScroll c)).
Proof.
  intros Hx Hy. pose proof (onScroll_beyond c x Hx) as E.
  split; [exact E |]. split; [rewrite E; tauto |]. split.
  - apply onScroll_within. rewrite scroll_trace_state, E. exact Hy.
  - intros evts. apply scroll_trace_value.
Qed.

Lemma scroll_guard_freezes_last_forwarded_witness :
  let c := laidOut (Some 6) (Some sampleBanner) in
  itemWidth (state c) * 2 < 500 /\
  100 <= itemWidth (state c) * 2 /\
  onScroll c (Some 500) = c /\
  animatedValueScroll
    (onScroll (fold_left onScroll [Some 600; None] (onScroll c (Some 500)))
              (Some 100)) = 100.
Proof.
  intros c.
  assert (Hx : itemWidth (state c) * 2 < 500) by reflexivity.
  assert (Hy : 100 <= itemWidth (state c) * 2) by discriminate.
  pose proof (scroll_guard_freezes_last_forwarded c 500 100 [Some 600; None] Hx Hy)
    as (E & _ & V & _).
  repeat split; assumption.
Defined.

(** C3 as stated fails: right after the first layout (tile width 87) an
    offset of 500 leaves the animated value at 0 and the resting sample on
    display, which is not the sample at offset 174. *)
Lemma frozen_sample_is_not_domain_max :
  let c := laidOut (Some 6) (Some sampleBanner) in
  itemWidth (state c) = 87 /\
  itemWidth (state c) * 2 < 500 /\
  animatedValueScroll (onScroll c (Some 500)) = 0 /\
  displayedSample (onScroll c (Some 500)) restingSample /\
  mapScrollOffset (2 * 87) 87 (domainMaxSample 87) /\
  restingSample <> domainMaxSample 87.
Proof.
  intros c. split; [reflexivity |]. split; [reflexivity |].
  split; [reflexivity |]. split; [| split].
  - refine (proj2 (sample_at_start _ _ _ _) eq_refl). right. reflexivity.
  - refine (proj2 (sample_at_end _ _ _ _ _) eq_refl); reflexivity.
  - intros H. apply (f_equal opacity) in H. simpl in H. rlra.
Qed.

(** ** Render *)

Lemma omap_tiles {A} (f : A -> TileView) (l : list A) :
  omap tileOf (map (fun a => Tile (f a)) l) = map f l.
Proof.
  induction l as [| a l IH]; [reflexivity |].
  simpl. f_equal. exact IH.
Qed.

Lemma omap_spacer (o : option CarouselChild) :
  (forall t, o <> Some (Tile t)) -> omap tileOf (child_or_null o) = [].
Proof.
  intros H. destruct o as [[k st | t] |]; try reflexivity.
  exfalso. apply (H t). reflexivity.
Qed.

Lemma tiles_renderCarousel (th : Theme) (p : CarouselImageProps) (iw : Q) :
  tiles (renderCarousel th p iw) = map (renderTile th p iw) (Props.data p).
Proof.
  unfold tiles, renderCarousel. simpl.
  rewrite !omap_app, omap_tiles, !omap_spacer.
  - rewrite app_nil_r. reflexivity.
  - intros t. destruct (truthy iw); discriminate.
  - intros t. destruct (Props.image p); discriminate.
Qed.

Lemma render_not_ready (th : Theme) (c : CarouselImage) :
  itemWidth (state c) == 0 ->
  view_banner (render th c) = None /\ view_carousel (render th c) = None.
Proof.
  intros H. apply truthy_false_iff in H. unfold render. simpl. rewrite H.
  destruct (Props.image (props c)); auto.
Qed.

Lemma render_ready (th : Theme) (c : CarouselImage) :
  ~ itemWidth (state c) == 0 ->
  view_carousel (render th c)
  = Some (renderCarousel th (props c) (itemWidth (state c))) /\
  view_banner (render th c)
  = option_map (renderBanner (itemWidth (state c))) (Props.image (props c)).
Proof.
  intros H. apply truthy_true_iff in H. unfold render. simpl. rewrite H.
  destruct (Props.image (props c)); auto.
Qed.

(** C7: with itemWidth 0 (as in the state right after construction)
    [render] yields neither banner nor carousel; with a positive itemWidth
    it yields the carousel with one tile per item of [data], in order, and
    a banner exactly when [image] is configured. *)
Theorem render_gated_by_tile_width (th : Theme) (c : CarouselImage) :
  (itemWidth (state c) == 0 ->
   view_banner (render th c) = None /\ view_carousel (render th c) = None) /\
  (0 < itemWidth (state c) ->
   (exists cv, view_carousel (render th c) = Some cv /\
               map tile_key (tiles cv) = map Item.key (Props.data (props c))) /\
   (is_Some (view_banner (render th c)) <-> is_Some (Props.image (props c)))) /\
  (forall p windowWidth, exists c0,
      CarouselImage_new p windowWidth = Ok c0 /\
      view_banner (render th c0) = None /\ view_carousel (render th c0) = None).
Proof.
  split; [apply render_not_ready |]. split.
  - intros Hpos. destruct (render_ready th c) as [Hc Hb]; [lra |]. split.
    + eexists. split; [exact Hc |].
      rewrite tiles_renderCarousel, map_map. reflexivity.
    + rewrite Hb. destruct (Props.image (props c)); simpl; split;
        intros [x Hx]; try discriminate Hx; eexists; reflexivity.
  - intros p ww. eexists. split; [reflexivity |].
    apply render_not_ready. reflexivity.
Qed.

Lemma render_gated_by_tile_width_witness :
  let c0 := initialInstance (sampleProps (Some 6) (Some sampleBanner)) 360 in
  let c1 := laidOut (Some 6) (Some sampleBanner) in
  let c2 := laidOut (Some 6) None in
  (itemWidth (state c0) == 0 /\
   view_banner (render sampleTheme c0) = None /\
   view_carousel (render sampleTheme c0) = None) /\
  (0 < itemWidth (state c1) /\
   is_Some (view_carousel (render sampleTheme c1)) /\
   is_Some (view_banner (render sampleTheme c1))) /\
  (0 < itemWidth (state c2) /\
   is_Some (view_carousel (render sampleTheme c2)) /\
   ~ is_Some (view_banner (render sampleTheme c2))).
Proof.
  intros c0 c1 c2.
  assert (H0 : itemWidth (state c0) == 0) by reflexivity.
  assert (H1 : 0 < itemWidth (state c1)) by reflexivity.
  assert (H2 : 0 < itemWidth (state c2)) by reflexivity.
  split; [| split].
  - split; [exact H0 |].
    exact (proj1 (render_gated_by_tile_width sampleTheme c0) H0).
  - split; [exact H1 |].
    destruct (proj1 (proj2 (render_gated_by_tile_width sampleTheme c1)) H1)
      as [(cv & Hcv & _) Hb].
    split; [rewrite Hcv; eexists; reflexivity |].
    apply Hb. eexists. reflexivity.
  - split; [exact H2 |].
    destruct (proj1 (proj2 (render_gated_by_tile_width sampleTheme c2)) H2)
      as [(cv & Hcv & _) Hb].
    split; [rewrite Hcv; eexists; reflexivity |].
    intros Hs. apply Hb in Hs. destruct Hs as [x Hx]. discriminate Hx.
Defined.

Lemma flatten_tile_image_style (th : Theme) (p : CarouselImageProps) (iw : Q)
    (item : CarouselImageItem) :
  flattenStyle (tile_image_style (renderTile th p iw item)) !! "width"
  = Some (SNum iw) /\
  flattenStyle (tile_image_style (renderTile th p iw item)) !! "height"
  = Some (SNum iw).
Proof.
  unfold flattenStyle, renderTile. simpl.
  destruct (Props.rounded p); destruct (style (Item.image item)); split;
    rewrite ?(lookup_union_r {[ "borderRadius" := _; "borderColor" := _;
                                "borderWidth" := _ ]}) by (simplify_map_eq; done);
    apply lookup_union_Some_l; simplify_map_eq; done.
Qed.

(** ** The mapping at tile width 0 *)

(** C4: with a tile width of 0 the domain is [0, 0]; at every offset the
    mapping computes without a division fault and its only sample is the
    resting one, opacity 1 and translateX 0; [render] builds no banner,
    hence no interpolation, in such a state. *)
Theorem zero_tile_width_rests (x tw : Q) :
  tw == 0 ->
  ~ divisionFault x tw /\
  (forall s, mapScrollOffset x tw s <-> s = restingSample) /\
  (forall th c, itemWidth (state c) == tw -> view_banner (render th c) = None).
Proof.
  intros Hz. split; [apply mapScrollOffset_never_faults |]. split.
  - intros s. apply sample_at_start. left. exact Hz.
  - intros th c Hc. apply render_not_ready. rewrite Hc. exact Hz.
Qed.

Lemma zero_tile_width_rests_witness :
  0 == 0 /\
  ~ divisionFault 40 0 /\
  (forall s, mapScrollOffset 40 0 s <-> s = restingSample) /\
  (forall th c, itemWidth (state c) == 0 -> view_banner (render th c) = None).
Proof.
  split; [reflexivity |].
  apply (zero_tile_width_rests 40 0). reflexivity.
Defined.

(** C10: with a positive itemWidth every item of [data] has its tile in
    the rendered carousel, and the resolved style of each tile image has
    width and height both equal to itemWidth. *)
Theorem tiles_are_square (th : Theme) (c : CarouselImage) :
  0 < itemWidth (state c) ->
  exists cv,
    view_carousel (render th c) = Some cv /\
    map tile_key (tiles cv) = map Item.key (Props.data (props c)) /\
    Forall (fun t =>
              flattenStyle (tile_image_style t) !! "width"
              = Some (SNum (itemWidth (state c))) /\
              flattenStyle (tile_image_style t) !! "height"
              = Some (SNum (itemWidth (state c))))
           (tiles cv).
Proof.
  intros Hpos. destruct (render_ready th c) as [Hc _]; [lra |].
  eexists. split; [exact Hc |]. rewrite tiles_renderCarousel. split.
  - rewrite map_map. reflexivity.
  - apply Forall_map, Forall_forall. intros item _.
    apply flatten_tile_image_style.
Qed.

Lemma tiles_are_square_witness :
  let c := laidOut (Some 6) (Some sampleBanner) in
  0 < itemWidth (state c) /\
  exists cv,
    view_carousel (render sampleTheme c) = Some cv /\
    map tile_key (tiles cv) = map Item.key (Props.data (props c)) /\
    Forall (fun t =>
              flattenStyle (tile_image_style t) !! "width"
              = Some (SNum (itemWidth (state c))) /\
              flattenStyle (tile_image_style t) !! "height"
              = Some (SNum (itemWidth (state c))))
           (tiles cv).
Proof.
  intros c. split; [reflexivity |].
  apply (tiles_are_square sampleTheme c). reflexivity.
Defined.

(** C9: with a supplied gap of 0 the tile width and the gap handed to
    [Carousel] are computed with the default 6; with a positive supplied
    gap they are computed with that gap. *)
Theorem zero_gap_falls_back_to_default
    (th : Theme) (c : CarouselImage) (w g : Q) :
  Props.gap (props c) = Some g ->
  (g == 0 ->
   computeTileWidth (props c) w
   = Math_round ((w - Props.numColumns (props c) * 6)
                 / (Props.numColumns (props c) + 0.25)) /\
   forall cv, view_carousel (render th c) = Some cv -> carousel_gap cv = 6) /\
  (0 < g ->
   computeTileWidth (props c) w
   = Math_round ((w - Props.numColumns (props c) * g)
                 / (Props.numColumns (props c) + 0.25)) /\
   forall cv, view_carousel (render th c) = Some cv -> carousel_gap cv = g).
Proof.
  intros Hg.
  assert (Hcv : forall cv, view_carousel (render th c) = Some cv ->
                           carousel_gap cv = or_default (Some g) GAP_DEFAULT).
  { intros cv. unfold render. simpl.
    destruct (truthy (itemWidth (state c))); [| discriminate].
    intros [= <-]. simpl. rewrite Hg. reflexivity. }
  split.
  - intros Hz. split; [apply (computeTileWidth_default _ _ g); assumption |].
    intros cv H. rewrite (Hcv cv H). apply or_default_zero. exact Hz.
  - intros Hpos. split; [apply (computeTileWidth_gap _ _ g); [assumption | lra] |].
    intros cv H. rewrite (Hcv cv H). apply or_default_nonzero. lra.
Qed.

Lemma zero_gap_falls_back_to_default_witness :
  let c := laidOut (Some 0) None in
  Props.gap (props c) = Some 0 /\ 0 == 0 /\
  computeTileWidth (props c) 300 = Math_round ((300 - 3 * 6) / (3 + 0.25)) /\
  exists cv, view_carousel (render sampleTheme c) = Some cv /\ carousel_gap cv = 6.
Proof.
  intros c.
  assert (Hg : Props.gap (props c) = Some 0) by reflexivity.
  assert (Hz : 0 == 0) by reflexivity.
  destruct (proj1 (zero_gap_falls_back_to_default sampleTheme c 300 0 Hg) Hz)
    as [Hw Hcv].
  split; [exact Hg |]. split; [exact Hz |]. split; [exact Hw |].
  eexists. split; [reflexivity |]. apply Hcv. reflexivity.
Defined.

(** C2 (amended): construction validates nothing: for every props,
    whatever [numColumns] is, it yields the initial instance (window
    width, itemWidth 0), and a layout report then computes the tile width
    with that [numColumns]. *)
Theorem construction_accepts_any_numColumns
    (p : CarouselImageProps) (windowWidth : Q) :
  exists c,
    CarouselImage_new p windowWidth = Ok c /\
    props c = p /\
    state c = {| width := windowWidth; itemWidth := 0 |} /\
    forall w,
      itemWidth (state (onLayout c w))
      = Math_round ((w - Props.numColumns p * or_default (Props.gap p) GAP_DEFAULT)
                    / (Props.numColumns p + 0.25)).
Proof.
  exists (initialInstance p windowWidth). repeat split.
Qed.

(** C2 as stated fails: [numColumns] 0 and [numColumns] 0.5 are both
    accepted without a ConfigurationError, and the division is carried
    out (tile widths 1200 and 396 at width 300). *)
Lemma invalid_numColumns_accepted :
  Props.numColumns (layoutProps 0 (Some 6)) <= 0 /\
  CarouselImage_new (layoutProps 0 (Some 6)) 360 <> Threw ConfigurationError /\
  itemWidth (state (onLayout (initialInstance (layoutProps 0 (Some 6)) 360) 300))
  = 1200 /\
  (forall z : Z, ~ Props.numColumns (layoutProps 0.5 (Some 6)) == inject_Z z) /\
  CarouselImage_new (layoutProps 0.5 (Some 6)) 360 <> Threw ConfigurationError /\
  itemWidth (state (onLayout (initialInstance (layoutProps 0.5 (Some 6)) 360) 300))
  = 396.
Proof.
  repeat split; try discriminate.
  intros z H. unfold Qeq in H. simpl in H. lia.
Qed.

(** * Further properties *)

(** ** The tile width, further *)

Lemma computeTileWidth_effective (p : CarouselImageProps) (w : Q) :
  computeTileWidth p w
  = Math_round ((w - Props.numColumns p * effectiveGap p)
                / (Props.numColumns p + 0.25)).
Proof. reflexivity. Qed.

Lemma Math_round_bounds (x : Q) :
  x - (1 # 2) < Math_round x /\ Math_round x <= x + (1 # 2).
Proof.
  destruct (Math_round_nearest x) as [Hlo Hhi].
  unfold Math_round. split; lra.
Qed.

Lemma Math_round_zero_iff (x : Q) :
  Math_round x == 0 <-> - (1 # 2) <= x /\ x < 1 # 2.
Proof.
  split.
  - intros H. destruct (Math_round_nearest x) as [Hlo Hhi].
    unfold Math_round in H. rewrite H in Hlo, Hhi. split; lra.
  - intros [Hlo Hhi].
    assert (N0 : nearest_integer x 0) by (unfold nearest_integer; change (inject_Z 0) with 0; split; lra).
    unfold Math_round.
    rewrite (nearest_integer_unique x _ 0 (Math_round_nearest x) N0).
    reflexivity.
Qed.

(** X1: a wider container never gives narrower tiles: for numColumns above
    -0.25 the tile width is non-decreasing in the reported width. *)
Theorem tile_width_monotone_in_width (p : CarouselImageProps) (w1 w2 : Q) :
  - (1 # 4) < Props.numColumns p -> w1 <= w2 ->
  computeTileWidth p w1 <= computeTileWidth p w2.
Proof.
  intros Hn Hw. unfold computeTileWidth. apply Math_round_mono.
  unfold Qdiv. apply Qmult_le_compat_r; [lra |].
  apply Qlt_le_weak, Qinv_lt_0_compat. lra.
Qed.

Lemma tile_width_monotone_in_width_witness :
  - (1 # 4) < 3 /\ 300 <= 318 /\
  computeTileWidth (layoutProps 3 (Some 6)) 300
  <= computeTileWidth (layoutProps 3 (Some 6)) 318.
Proof.
  assert (H1 : - (1 # 4) < Props.numColumns (layoutProps 3 (Some 6)))
    by reflexivity.
  assert (H2 : 300 <= 318) by discriminate.
  split; [exact H1 |]. split; [exact H2 |].
  exact (tile_width_monotone_in_width (layoutProps 3 (Some 6)) 300 318 H1 H2).
Defined.

Lemma quotient_le (a1 a2 d1 d2 : Q) :
  0 < d1 -> 0 < d2 -> a2 * d1 <= a1 * d2 -> a2 / d2 <= a1 / d1.
Proof.
  intros H1 H2 H.
  apply Qle_shift_div_l; [exact H1 |].
  assert (E : a2 / d2 * d1 == (a2 * d1) / d2) by (field; lra).
  rewrite E. apply Qle_shift_div_r; [exact H2 | exact H].
Qed.

(** X2: with the same gap, more columns never give wider tiles, provided
    the width plus a quarter of the effective gap is not negative. *)
Theorem more_columns_narrower_tiles (p1 p2 : CarouselImageProps) (w : Q) :
  Props.gap p1 = Props.gap p2 ->
  - (1 # 4) < Props.numColumns p1 ->
  Props.numColumns p1 <= Props.numColumns p2 ->
  0 <= w + effectiveGap p1 / 4 ->
  computeTileWidth p2 w <= computeTileWidth p1 w.
Proof.
  intros Hg Hn H12 Hw. rewrite !computeTileWidth_effective.
  unfold effectiveGap in *. rewrite <- Hg.
  set (g := or_default (Props.gap p1) GAP_DEFAULT) in *.
  set (n1 := Props.numColumns p1) in *. set (n2 := Props.numColumns p2) in *.
  apply Math_round_mono, quotient_le; try lra.
  assert (P : 0 <= (n2 - n1) * (w + g / 4)) by (apply Qmult_le_0_compat; lra).
  assert (E : (n2 - n1) * (w + g / 4)
              == (w - n1 * g) * (n2 + 0.25) - (w - n2 * g) * (n1 + 0.25))
    by field.
  lra.
Qed.

Lemma more_columns_narrower_tiles_witness :
  - (1 # 4) < 3 /\ 3 <= 4 /\ 0 <= 300 + 6 / 4 /\
  computeTileWidth (layoutProps 4 (Some 6)) 300
  <= computeTileWidth (layoutProps 3 (Some 6)) 300.
Proof.
  assert (H1 : - (1 # 4) < Props.numColumns (layoutProps 3 (Some 6)))
    by reflexivity.
  assert (H2 : Props.numColumns (layoutProps 3 (Some 6))
               <= Props.numColumns (layoutProps 4 (Some 6))) by discriminate.
  assert (H3 : 0 <= 300 + effectiveGap (layoutProps 3 (Some 6)) / 4)
    by discriminate.
  split; [exact H1 |]. split; [exact H2 |]. split; [exact H3 |].
  exact (more_columns_narrower_tiles (layoutProps 3 (Some 6))
           (layoutProps 4 (Some 6)) 300 eq_refl H1 H2 H3).
Defined.

(** X3: numColumns tiles, their gaps and the quarter tile that peeks in
    take up the container width to within half of (numColumns + 0.25). *)
Theorem tiles_fill_container (p : CarouselImageProps) (w : Q) :
  - (1 # 4) < Props.numColumns p ->
  let n := Props.numColumns p in
  let used := n * computeTileWidth p w + n * effectiveGap p
              + 0.25 * computeTileWidth p w in
  w - (n + 0.25) / 2 < used /\ used <= w + (n + 0.25) / 2.
Proof.
  intros Hn n used. subst used.
  rewrite computeTileWidth_effective. fold n.
  set (g := effectiveGap p). set (d := n + 0.25).
  assert (Hd : 0 < d) by (unfold d, n; lra).
  destruct (Math_round_bounds ((w - n * g) / d)) as [Hlo Hhi].
  set (r := Math_round ((w - n * g) / d)) in *.
  assert (Eq : (w - n * g) / d * d == w - n * g) by (field; lra).
  assert (L : ((w - n * g) / d - (1 # 2)) * d < r * d)
    by (apply Qmult_lt_compat_r; assumption).
  assert (U : r * d <= ((w - n * g) / d + (1 # 2)) * d)
    by (apply Qmult_le_compat_r; [assumption | lra]).
  assert (Ed : d == n + 0.25) by reflexivity.
  assert (Er : r * d == n * r + 0.25 * r) by (rewrite Ed; ring).
  assert (Eh : d / 2 == d * (1 # 2)) by field.
  clearbody r d g n. rewrite Eh. split; lra.
Qed.

Lemma tiles_fill_container_witness :
  - (1 # 4) < 3 /\
  300 - (3 + 0.25) / 2 < 3 * 87 + 3 * 6 + 0.25 * 87 /\
  3 * 87 + 3 * 6 + 0.25 * 87 <= 300 + (3 + 0.25) / 2.
Proof.
  assert (H1 : - (1 # 4) < Props.numColumns (layoutProps 3 (Some 6)))
    by reflexivity.
  split; [exact H1 |].
  exact (tiles_fill_container (layoutProps 3 (Some 6)) 300 H1).
Defined.


(** ** Readiness after a layout report *)

Lemma view_carousel_None_iff (th : Theme) (c : CarouselImage) :
  view_carousel (render th c) = None <-> itemWidth (state c) == 0.
Proof.
  split.
  - intros H. destruct (Qeq_dec (itemWidth (state c)) 0) as [E | E]; [exact E |].
    destruct (render_ready th c E) as [Hc _]. congruence.
  - intros H. apply render_not_ready. exact H.
Qed.

Lemma half_quotient_iff (a d : Q) :
  0 < d ->
  (- (1 # 2) <= a / d /\ a / d < 1 # 2) <-> (- (d / 2) <= a /\ a < d / 2).
Proof.
  intros Hd.
  assert (Eq : a / d * d == a) by (field; lra).
  assert (Eh : d / 2 == d * (1 # 2)) by field.
  rewrite Eh. split; intros [Hlo Hhi].
  - assert (L : - (1 # 2) * d <= a / d * d)
      by (apply Qmult_le_compat_r; [assumption | lra]).
    assert (U : a / d * d < (1 # 2) * d)
      by (apply Qmult_lt_compat_r; assumption).
    split; lra.
  - split.
    + apply Qle_shift_div_l; [exact Hd | lra].
    + apply Qlt_shift_div_r; [exact Hd | lra].
Qed.

(** X4: after a layout report the carousel stays unrendered exactly when the
    room left by the gaps, w - n * gap, lies in [-(n + 0.25)/2, (n + 0.25)/2). *)
Theorem layout_not_ready_iff (th : Theme) (c : CarouselImage) (w : Q) :
  - (1 # 4) < Props.numColumns (props c) ->
  let n := Props.numColumns (props c) in
  let room := w - n * effectiveGap (props c) in
  view_carousel (render th (onLayout c w)) = None <->
  - ((n + 0.25) / 2) <= room /\ room < (n + 0.25) / 2.
Proof.
  intros Hn n room. rewrite view_carousel_None_iff. simpl.
  rewrite computeTileWidth_effective, Math_round_zero_iff.
  apply half_quotient_iff. unfold n. lra.
Qed.

Lemma layout_not_ready_iff_witness :
  let c := initialInstance (sampleProps (Some 6) None) 360 in
  - (1 # 4) < 3 /\
  (view_carousel (render sampleTheme (onLayout c 19)) = None <->
   - ((3 + 0.25) / 2) <= 19 - 3 * 6 /\ 19 - 3 * 6 < (3 + 0.25) / 2).
Proof.
  intros c.
  assert (H1 : - (1 # 4) < Props.numColumns (props c)) by reflexivity.
  split; [exact H1 |].
  exact (layout_not_ready_iff sampleTheme c 19 H1).
Defined.

(** X5: a reported width of 0 does not defer rendering: with at least
    one column and an effective gap of at least 1 the tile width is
    negative (at most -1) and the carousel is rendered with it. *)
Theorem unmeasured_width_is_not_deferred (th : Theme) (c : CarouselImage) :
  1 <= Props.numColumns (props c) ->
  1 <= effectiveGap (props c) ->
  itemWidth (state (onLayout c 0)) <= - 1 /\
  is_Some (view_carousel (render th (onLayout c 0))).
Proof.
  intros Hn Hg.
  assert (Hw : itemWidth (state (onLayout c 0)) <= - 1).
  { simpl. rewrite computeTileWidth_effective.
    set (n := Props.numColumns (props c)) in *.
    set (g := effectiveGap (props c)) in *.
    change (- 1) with (Math_round (- (4 # 5))).
    apply Math_round_mono.
    apply Qle_shift_div_r; [lra |].
    assert (P : 0 <= n * (g - 1)) by (apply Qmult_le_0_compat; lra).
    lra. }
  split; [exact Hw |].
  destruct (render_ready th (onLayout c 0)) as [Hc _]; [lra |].
  rewrite Hc. eexists. reflexivity.
Qed.

Lemma unmeasured_width_is_not_deferred_witness :
  let c := initialInstance (sampleProps None None) 360 in
  1 <= 3 /\ 1 <= 6 /\
  itemWidth (state (onLayout c 0)) <= - 1 /\
  is_Some (view_carousel (render sampleTheme (onLayout c 0))).
Proof.
  intros c.
  assert (H1 : 1 <= Props.numColumns (props c)) by discriminate.
  assert (H2 : 1 <= effectiveGap (props c)) by discriminate.
  split; [exact H1 |]. split; [exact H2 |].
  exact (unmeasured_width_is_not_deferred sampleTheme c H1 H2).
Defined.

Lemma effectiveGap_nonzero (p : CarouselImageProps) : ~ effectiveGap p == 0.
Proof.
  unfold effectiveGap, or_default. destruct (Props.gap p) as [g |].
  - destruct (truthy g) eqn:E.
    + apply truthy_true_iff. exact E.
    + discriminate.
  - discriminate.
Qed.

(** X6: the gap handed to [Carousel] is never 0, is 6 when no gap is
    given, and is the very gap the tile width is computed with. *)
Theorem carousel_gap_is_effective_gap
    (th : Theme) (c : CarouselImage) (cv : CarouselView) :
  view_carousel (render th c) = Some cv ->
  ~ carousel_gap cv == 0 /\
  (Props.gap (props c) = None -> carousel_gap cv = 6) /\
  (forall w,
      computeTileWidth (props c) w
      = Math_round ((w - Props.numColumns (props c) * carousel_gap cv)
                    / (Props.numColumns (props c) + 0.25))).
Proof.
  intros H.
  assert (E : carousel_gap cv = effectiveGap (props c)).
  { unfold render in H. simpl in H.
    destruct (truthy (itemWidth (state c))); [| discriminate].
    injection H as <-. reflexivity. }
  rewrite E. split; [apply effectiveGap_nonzero |]. split.
  - intros Hg. unfold effectiveGap. rewrite Hg. reflexivity.
  - intros w. apply computeTileWidth_effective.
Qed.

Lemma carousel_gap_is_effective_gap_witness :
  let c := laidOut None None in
  let cv := renderCarousel sampleTheme (props c) (itemWidth (state c)) in
  view_carousel (render sampleTheme c) = Some cv /\
  ~ carousel_gap cv == 0 /\
  (Props.gap (props c) = None -> carousel_gap cv = 6) /\
  (forall w,
      computeTileWidth (props c) w
      = Math_round ((w - Props.numColumns (props c) * carousel_gap cv)
                    / (Props.numColumns (props c) + 0.25))).
Proof.
  intros c cv.
  assert (H : view_carousel (render sampleTheme c) = Some cv) by reflexivity.
  split; [exact H |].
  exact (carousel_gap_is_effective_gap sampleTheme c cv H).
Defined.


(** ** Runs of notifications *)

Lemma handle_props (c : CarouselImage) (e : event) :
  props (handle c e) = props c.
Proof. destruct e; simpl; [reflexivity | apply onScroll_state]. Qed.

Lemma run_props (es : list event) (c : CarouselImage) :
  props (run c es) = props c.
Proof.
  unfold run. revert c.
  induction es as [| e es IH]; intros c; simpl; [reflexivity |].
  rewrite IH. apply handle_props.
Qed.

Lemma lastLayout_snoc (es : list event) (e : event) :
  lastLayout (es ++ [e]) =
  match e with LayoutEvent w => Some w | ScrollEvent _ => lastLayout es end.
Proof.
  unfold lastLayout. rewrite omap_app. destruct e as [w | evt]; simpl.
  - rewrite map_app. simpl. apply last_last.
  - rewrite app_nil_r. reflexivity.
Qed.

(** X7: after any run of layout and scroll notifications the props are
    unchanged and the state is the one of the last layout report (its
    width and the tile width computed from it); scroll notifications
    alone leave the state as it was. *)
Theorem run_keeps_latest_layout (c : CarouselImage) (es : list event) :
  props (run c es) = props c /\
  state (run c es) =
  match lastLayout es with
  | Some w => {| width := w; itemWidth := computeTileWidth (props c) w |}
  | None => state c
  end.
Proof.
  split; [apply run_props |].
  induction es as [| e es IH] using rev_ind; [reflexivity |].
  rewrite lastLayout_snoc. unfold run in *. rewrite fold_left_app. simpl.
  destruct e as [w | evt]; simpl.
  - fold (run c es). rewrite run_props. reflexivity.
  - destruct (onScroll_state (fold_left handle es c) evt) as [-> _]. exact IH.
Qed.

Lemma onScroll_withinDomain (c : CarouselImage) (evt : option Q) :
  withinDomain c -> withinDomain (onScroll c evt).
Proof.
  unfold withinDomain, onScroll. intros H. destruct evt as [x |]; [| exact H].
  destruct (Qle_bool x (itemWidth (state c) * 2)) eqn:E; [| exact H].
  simpl. apply Qle_bool_iff. exact E.
Qed.

(** X8: scroll notifications keep the animated value at or below
    2 * itemWidth once it is there; a layout report keeps the animated
    value, so one that shrinks the tile width below half of it leaves the
    value beyond the domain. *)
Theorem scroll_keeps_value_within_domain
    (c : CarouselImage) (evts : list (option Q)) :
  withinDomain c ->
  withinDomain (fold_left onScroll evts c) /\
  (forall w,
      computeTileWidth (props c) w * 2 < animatedValueScroll c ->
      animatedValueScroll (onLayout c w) = animatedValueScroll c /\
      ~ withinDomain (onLayout c w)).
Proof.
  intros H. split.
  - revert c H. induction evts as [| e evts IH]; intros c H; simpl; [exact H |].
    apply IH, onScroll_withinDomain, H.
  - intros w Hw. split; [reflexivity |].
    unfold withinDomain. simpl. lra.
Qed.

Lemma scroll_keeps_value_within_domain_witness :
  let c := laidOut (Some 6) (Some sampleBanner) in
  withinDomain c /\
  withinDomain (fold_left onScroll [Some 100; Some 500; Some 170] c) /\
  computeTileWidth (props c) 100 * 2
  < animatedValueScroll (fold_left onScroll [Some 100; Some 500; Some 170] c) /\
  ~ withinDomain
      (onLayout (fold_left onScroll [Some 100; Some 500; Some 170] c) 100).
Proof.
  intros c.
  assert (H : withinDomain c) by discriminate.
  destruct (scroll_keeps_value_within_domain c [Some 100; Some 500; Some 170] H)
    as [H1 _].
  assert (Hs : computeTileWidth
                 (props (fold_left onScroll [Some 100; Some 500; Some 170] c)) 100 * 2
               < animatedValueScroll
                   (fold_left onScroll [Some 100; Some 500; Some 170] c))
    by reflexivity.
  split; [exact H |]. split; [exact H1 |]. split; [exact Hs |].
  exact (proj2 (proj2 (scroll_keeps_value_within_domain _ [] H1) 100 Hs)).
Defined.


(** ** The children of the carousel *)

Lemma laidOut_ready (g : option Q) (img : option ImageProps) :
  g = Some 6 \/ g = None -> ~ itemWidth (state (laidOut g img)) == 0.
Proof. intros [-> | ->] H; discriminate H. Qed.

Lemma renderCarousel_children (th : Theme) (p : CarouselImageProps) (iw : Q) :
  ~ iw == 0 ->
  carousel_children (renderCarousel th p iw)
  = match Props.image p with
    | Some _ => [leadingSpacer iw]
    | None => []
    end
    ++ map Tile (map (renderTile th p iw) (Props.data p))
    ++ [trailingSpacer (length (Props.data p)) iw].
Proof.
  intros H. apply truthy_true_iff in H. unfold renderCarousel. simpl.
  rewrite H, map_map. destruct (Props.image p); reflexivity.
Qed.

(** X9: whenever the carousel is rendered its children are the leading
    spacer (only with a banner image), one tile per item in order and
    always the trailing spacer, so there are |data| + 1 or |data| + 2 of
    them, also for empty data. *)
Theorem carousel_children_layout (th : Theme) (c : CarouselImage) :
  ~ itemWidth (state c) == 0 ->
  exists cv,
    view_carousel (render th c) = Some cv /\
    carousel_children cv
    = match Props.image (props c) with
      | Some _ => [leadingSpacer (itemWidth (state c))]
      | None => []
      end
      ++ map Tile (tiles cv)
      ++ [trailingSpacer (length (Props.data (props c))) (itemWidth (state c))] /\
    length (tiles cv) = length (Props.data (props c)) /\
    length (carousel_children cv)
    = (match Props.image (props c) with Some _ => 1 | None => 0 end
       + length (Props.data (props c)) + 1)%nat.
Proof.
  intros H. destruct (render_ready th c H) as [Hc _].
  eexists. split; [exact Hc |].
  rewrite tiles_renderCarousel, renderCarousel_children by exact H.
  split; [reflexivity |]. split.
  - rewrite length_map. reflexivity.
  - rewrite !length_app, !length_map. simpl.
    destruct (Props.image (props c)); simpl; lia.
Qed.

Lemma carousel_children_layout_witness :
  let c := laidOut (Some 6) (Some sampleBanner) in
  ~ itemWidth (state c) == 0 /\
  exists cv,
    view_carousel (render sampleTheme c) = Some cv /\
    carousel_children cv
    = [leadingSpacer 87] ++ map Tile (tiles cv) ++ [trailingSpacer 2 87] /\
    length (tiles cv) = 2%nat /\
    length (carousel_children cv) = 4%nat.
Proof.
  intros c.
  assert (H : ~ itemWidth (state c) == 0) by (apply laidOut_ready; auto).
  split; [exact H |].
  exact (carousel_children_layout sampleTheme c H).
Defined.

Lemma pretty_N_go_not_underscore (x : N) (s s' : string) :
  s <> "_" +:+ s' -> pretty_N_go x s <> "_" +:+ s'.
Proof.
  revert s. induction (N.lt_wf_0 x) as [x _ IH]. intros s Hs.
  destruct (N.eq_dec x 0) as [-> | Hx].
  - rewrite pretty_N_go_0. exact Hs.
  - rewrite pretty_N_go_step by lia. apply IH.
    + apply N.div_lt; lia.
    + unfold pretty_N_char. simpl. repeat case_match; discriminate.
Qed.

Lemma trailing_key_not_leading (n : nat) : "_" +:+ pretty n <> "__-1".
Proof.
  intros H. injection H as H. revert H.
  unfold pretty, pretty_nat, pretty, pretty_N.
  destruct (decide (N.of_nat n = 0%N)); [discriminate |].
  apply pretty_N_go_not_underscore. discriminate.
Qed.

Lemma child_keys (th : Theme) (p : CarouselImageProps) (iw : Q) :
  ~ iw == 0 ->
  map childKey (carousel_children (renderCarousel th p iw))
  = match Props.image p with Some _ => ["__-1"] | None => [] end
    ++ map Item.key (Props.data p)
    ++ ["_" +:+ pretty (length (Props.data p))].
Proof.
  intros H. rewrite renderCarousel_children by exact H.
  rewrite !map_app, !map_map. destruct (Props.image p); reflexivity.
Qed.

(** X10: the keys of the carousel's children are pairwise distinct exactly
    when the item keys are distinct and none of them is the key of a spacer
    in use ("__-1" with a banner, "_" followed by |data|). *)
Theorem child_keys_distinct_iff (th : Theme) (c : CarouselImage) :
  ~ itemWidth (state c) == 0 ->
  exists cv,
    view_carousel (render th c) = Some cv /\
    (stdpp.base.NoDup (map childKey (carousel_children cv)) <->
     stdpp.base.NoDup (map Item.key (Props.data (props c))) /\
     (is_Some (Props.image (props c)) ->
      "__-1" ∉ map Item.key (Props.data (props c))) /\
     "_" +:+ pretty (length (Props.data (props c)))
       ∉ map Item.key (Props.data (props c))).
Proof.
  intros H. destruct (render_ready th c H) as [Hc _].
  eexists. split; [exact Hc |]. rewrite child_keys by exact H.
  pose proof (trailing_key_not_leading (length (Props.data (props c)))) as Hne.
  set (ks := map Item.key (Props.data (props c))) in *.
  set (tk := "_" +:+ pretty (length (Props.data (props c)))) in *.
  destruct (Props.image (props c)) as [img |]; simpl.
  - rewrite list.NoDup_cons, list.NoDup_app, elem_of_app.
    setoid_rewrite list_elem_of_singleton. split.
    + intros (Hl & Hk & Ht & _). split; [exact Hk |]. split.
      * intros _ Hin. apply Hl. left. exact Hin.
      * intros Hin. apply (Ht tk Hin). reflexivity.
    + intros (Hk & Hl & Ht). split; [| split; [exact Hk | split]].
      * intros [Hin | Heq]; [apply Hl; [eexists; reflexivity | exact Hin] |].
        apply Hne. symmetry. exact Heq.
      * intros x Hx ->. apply Ht. exact Hx.
      * apply NoDup_singleton.
  - rewrite list.NoDup_app.
    setoid_rewrite list_elem_of_singleton. split.
    + intros (Hk & Ht & _). split; [exact Hk |]. split.
      * intros [x Hx]. discriminate Hx.
      * intros Hin. apply (Ht tk Hin). reflexivity.
    + intros (Hk & _ & Ht). split; [exact Hk | split].
      * intros x Hx ->. apply Ht. exact Hx.
      * apply NoDup_singleton.
Qed.

Lemma child_keys_distinct_iff_witness :
  let c := laidOut (Some 6) (Some sampleBanner) in
  ~ itemWidth (state c) == 0 /\
  exists cv,
    view_carousel (render sampleTheme c) = Some cv /\
    (stdpp.base.NoDup (map childKey (carousel_children cv)) <->
     stdpp.base.NoDup (map Item.key (Props.data (props c))) /\
     (is_Some (Props.image (props c)) ->
      "__-1" ∉ map Item.key (Props.data (props c))) /\
     "_" +:+ pretty (length (Props.data (props c)))
       ∉ map Item.key (Props.data (props c))).
Proof.
  intros c.
  assert (H : ~ itemWidth (state c) == 0) by (apply laidOut_ready; auto).
  split; [exact H |].
  exact (child_keys_distinct_iff sampleTheme c H).
Defined.


(** ** Resolved styles *)

Lemma flattenStyle_three (o ob : option StyleObject) (a : StyleObject) (k : string) :
  flattenStyle [o; Some a; ob] !! k =
  match (match ob with Some b => b !! k | None => None end) with
  | Some v => Some v
  | None =>
      match a !! k with
      | Some v => Some v
      | None => match o with Some s => s !! k | None => None end
      end
  end.
Proof.
  unfold flattenStyle. simpl.
  destruct ob as [b |], o as [s |]; rewrite ?lookup_union, ?lookup_empty;
    repeat match goal with |- context [?m !! k] => destruct (m !! k) end;
    reflexivity.
Qed.

Lemma renderBanner_resolved (iw : Q) (img : ImageProps) :
  let st := flattenStyle (banner_style (renderBanner iw img)) in
  st !! "width" = Some (SNum (iw * 2)) /\
  st !! "height" = Some (SStr "100%") /\
  st !! "resizeMode" = Some (SStr "contain") /\
  st !! "position" = Some (SStr "absolute") /\
  st !! "left" = Some (SNum 0) /\
  st !! "top" = Some (SNum 0) /\
  st !! "opacity" = Some (SAnimated (opacityInterpolation iw)) /\
  st !! "transform"
  = Some (STransform [("translateX", translateXInterpolation iw)]) /\
  (forall k, k ∉ bannerKeys -> st !! k = ownStyle img k).
Proof.
  unfold renderBanner. simpl.
  repeat split; try (rewrite flattenStyle_three; reflexivity).
  intros k Hk. unfold bannerKeys in Hk.
  rewrite !not_elem_of_cons in Hk.
  destruct Hk as (? & ? & ? & ? & ? & ? & ? & ? & _).
  rewrite flattenStyle_three. unfold styles_image, ownStyle.
  simplify_map_eq. reflexivity.
Qed.

(** X11: the resolved style of the banner has the component's position,
    size, opacity and transform whatever the image's own style says, and
    keeps every other key of the image's own style. *)
Theorem banner_style_resolved (th : Theme) (c : CarouselImage) (img : ImageProps) :
  Props.image (props c) = Some img ->
  ~ itemWidth (state c) == 0 ->
  exists b,
    view_banner (render th c) = Some b /\
    banner_props b = img /\
    let iw := itemWidth (state c) in
    let st := flattenStyle (banner_style b) in
    st !! "width" = Some (SNum (iw * 2)) /\
    st !! "height" = Some (SStr "100%") /\
    st !! "resizeMode" = Some (SStr "contain") /\
    st !! "position" = Some (SStr "absolute") /\
    st !! "left" = Some (SNum 0) /\
    st !! "top" = Some (SNum 0) /\
    st !! "opacity" = Some (SAnimated (opacityInterpolation iw)) /\
    st !! "transform"
    = Some (STransform [("translateX", translateXInterpolation iw)]) /\
    (forall k, k ∉ bannerKeys -> st !! k = ownStyle img k).
Proof.
  intros Himg Hw. destruct (render_ready th c Hw) as [_ Hb].
  rewrite Himg in Hb. simpl in Hb.
  eexists. split; [exact Hb |]. split; [reflexivity |].
  apply renderBanner_resolved.
Qed.

Lemma banner_style_resolved_witness :
  let c := laidOut (Some 6) (Some sampleBanner) in
  Props.image (props c) = Some sampleBanner /\
  ~ itemWidth (state c) == 0 /\
  exists b,
    view_banner (render sampleTheme c) = Some b /\
    flattenStyle (banner_style b) !! "width" = Some (SNum (87 * 2)) /\
    ownStyle sampleBanner "width" = Some (SNum 10).
Proof.
  intros c.
  assert (H : ~ itemWidth (state c) == 0) by (apply laidOut_ready; auto).
  split; [reflexivity |]. split; [exact H |].
  destruct (banner_style_resolved sampleTheme c sampleBanner eq_refl H)
    as (b & Hb & _ & Hw & _).
  exists b. split; [exact Hb |]. split; [exact Hw | reflexivity].
Defined.

Lemma Forall2_map_right {A B} (P : A -> B -> Prop) (f : A -> B) (l : list A) :
  (forall x, P x (f x)) -> Forall2 P l (map f l).
Proof.
  intros H. induction l as [| x l IH]; simpl; constructor; auto.
Qed.

(** X12: tile by tile, in the order of [data]: key, image and content come
    from the item; the bottom margin is the theme's; with [rounded] the
    border radius is half the tile width and the border is the theme's,
    without it the item's own border keys survive; other keys of the
    item's own style always survive. *)
Theorem tile_style_resolved (th : Theme) (c : CarouselImage) :
  ~ itemWidth (state c) == 0 ->
  exists cv,
    view_carousel (render th c) = Some cv /\
    Forall2
      (fun item t =>
         let iw := itemWidth (state c) in
         let st := flattenStyle (tile_image_style t) in
         tile_key t = Item.key item /\
         tile_image t = Item.image item /\
         tile_content t
         = match Props.renderContent (props c) with
           | Some f => f item
           | None => None
           end /\
         tile_style t !! "width" = Some (SNum iw) /\
         st !! "marginBottom" = Some (SNum (paddingSmall th)) /\
         (if Props.rounded (props c)
          then st !! "borderRadius" = Some (SNum (iw / 2)) /\
               st !! "borderColor" = Some (SStr (colorLine th)) /\
               st !! "borderWidth" = Some (SNum (lineWidth th))
          else forall k, k ∈ roundedKeys ->
                         st !! k = ownStyle (Item.image item) k) /\
         (forall k, k ∉ tileKeys ++ roundedKeys ->
                    st !! k = ownStyle (Item.image item) k))
      (Props.data (props c)) (tiles cv).
Proof.
  intros Hw. destruct (render_ready th c Hw) as [Hc _].
  eexists. split; [exact Hc |]. rewrite tiles_renderCarousel.
  apply Forall2_map_right. intros item. unfold renderTile. simpl.
  split; [reflexivity |]. split; [reflexivity |]. split; [reflexivity |].
  split; [reflexivity |]. split; [| split].
  - rewrite flattenStyle_three. destruct (Props.rounded (props c)); reflexivity.
  - destruct (Props.rounded (props c)).
    + repeat split; rewrite flattenStyle_three; reflexivity.
    + intros k Hk. unfold roundedKeys in Hk.
      rewrite flattenStyle_three. unfold ownStyle.
      rewrite !elem_of_cons in Hk.
      destruct Hk as [-> | [-> | [-> | Hk]]]; [reflexivity .. |].
      apply elem_of_nil in Hk. contradiction.
  - intros k Hk. unfold tileKeys, roundedKeys in Hk. simpl in Hk.
    rewrite !not_elem_of_cons in Hk.
    destruct Hk as (? & ? & ? & ? & ? & ? & _).
    rewrite flattenStyle_three. unfold ownStyle.
    destruct (Props.rounded (props c)); simplify_map_eq; reflexivity.
Qed.

Lemma tile_style_resolved_witness :
  let c := laidOut (Some 6) (Some sampleBanner) in
  ~ itemWidth (state c) == 0 /\
  exists cv,
    view_carousel (render sampleTheme c) = Some cv /\
    Forall2
      (fun item t =>
         tile_key t = Item.key item /\
         flattenStyle (tile_image_style t) !! "borderRadius"
         = Some (SNum (87 / 2)))
      sampleItems (tiles cv).
Proof.
  intros c.
  assert (H : ~ itemWidth (state c) == 0) by (apply laidOut_ready; auto).
  split; [exact H |].
  destruct (tile_style_resolved sampleTheme c H) as (cv & Hc & Hf).
  exists cv. split; [exact Hc |].
  change sampleItems with (Props.data (props c)).
  eapply Forall2_impl; [| exact Hf].
  intros item t (Hk & _ & _ & _ & _ & (Hr & _) & _).
  split; [exact Hk | exact Hr].
Defined.

(** X13: whenever a banner is rendered the carousel is rendered too and
    starts with the leading spacer; banner width, spacer width and the
    upper end of both animation input ranges are all 2 * itemWidth. *)
Theorem banner_matches_leading_spacer
    (th : Theme) (c : CarouselImage) (b : BannerView) :
  view_banner (render th c) = Some b ->
  exists cv rest,
    view_carousel (render th c) = Some cv /\
    carousel_children cv = leadingSpacer (itemWidth (state c)) :: rest /\
    flattenStyle (banner_style b) !! "width"
    = Some (SNum (itemWidth (state c) * 2)) /\
    (forall i, flattenStyle (banner_style b) !! "opacity" = Some (SAnimated i) ->
               inputRange i = (0, itemWidth (state c) * 2)) /\
    (forall k i, flattenStyle (banner_style b) !! "transform"
                 = Some (STransform [(k, i)]) ->
                 inputRange i = (0, itemWidth (state c) * 2)).
Proof.
  intros Hb.
  destruct (Qeq_dec (itemWidth (state c)) 0) as [Hz | Hnz].
  { destruct (render_not_ready th c Hz) as [E _]. congruence. }
  destruct (Props.image (props c)) as [img |] eqn:Himg.
  - destruct (render_ready th c Hnz) as [Hc Hb'].
    rewrite Hb, Himg in Hb'. injection Hb' as ->.
    destruct (renderBanner_resolved (itemWidth (state c)) img)
      as (Hw & _ & _ & _ & _ & _ & Ho & Ht & _).
    eexists. eexists. split; [exact Hc |]. split.
    + rewrite renderCarousel_children by exact Hnz. rewrite Himg. reflexivity.
    + split; [exact Hw |]. split.
      * intros i Hi. rewrite Ho in Hi. injection Hi as <-. reflexivity.
      * intros k i Hi. rewrite Ht in Hi. injection Hi as _ <-. reflexivity.
  - destruct (render_ready th c Hnz) as [_ E].
    rewrite Hb, Himg in E. discriminate E.
Qed.

Lemma banner_matches_leading_spacer_witness :
  let c := laidOut (Some 6) (Some sampleBanner) in
  let b := renderBanner (itemWidth (state c)) sampleBanner in
  view_banner (render sampleTheme c) = Some b /\
  exists cv rest,
    view_carousel (render sampleTheme c) = Some cv /\
    carousel_children cv = leadingSpacer 87 :: rest /\
    flattenStyle (banner_style b) !! "width" = Some (SNum (87 * 2)).
Proof.
  intros c b.
  assert (H : view_banner (render sampleTheme c) = Some b) by reflexivity.
  split; [exact H |].
  destruct (banner_matches_leading_spacer sampleTheme c b H)
    as (cv & rest & Hc & Hch & Hw & _).
  exists cv, rest. auto.
Defined.


(** ** Samples, further *)

Lemma curveY_unit (t : R) : (0 <= t <= 1 -> 0 <= curveY t <= 1)%R.
Proof.
  intros [H0 H1]. unfold curveY.
  assert (A : (0 <= (t * t) * (3 - 2 * t))%R).
  { apply Rmult_le_pos; [apply Rmult_le_pos |]; rlra. }
  assert (B : (0 <= ((1 - t) * (1 - t)) * (1 + 2 * t))%R).
  { apply Rmult_le_pos; [apply Rmult_le_pos |]; rlra. }
  split; rlra.
Qed.

Lemma eased_unit (p v : R) : eases bannerEasing p v -> (0 <= v <= 1)%R.
Proof.
  intros H. apply eases_curve in H. destruct H as (t & Ht & _ & <-).
  apply curveY_unit. exact Ht.
Qed.

(** X14: for a non-negative tile width and an offset inside the domain,
    every sample has its opacity in [0.05, 1] and its translateX in
    [-0.25 * tileWidth, 0] (the interpolation read as the spec reads it). *)
Theorem sample_within_ranges (tw x : Q) (s : AnimationSample) :
  0 <= tw -> 0 <= x -> x <= 2 * tw ->
  mapScrollOffset x tw s ->
  (0.05 <= opacity s <= 1)%R /\
  (- 0.25 * Q2R tw <= translateX s <= 0)%R.
Proof.
  intros Htw _ _ [Ho Ht].
  apply (interpolate_unfold (opacityInterpolation tw) (tw * 2) 1 0.05
           eq_refl eq_refl eq_refl) in Ho.
  apply (interpolate_unfold (translateXInterpolation tw) (tw * 2) 0
           (- (tw * 0.25)) eq_refl eq_refl eq_refl) in Ht.
  destruct Ho as (p & v & _ & Hv & ->). destruct Ht as (q & u & _ & Hu & ->).
  apply eased_unit in Hv, Hu.
  rewrite Q2R_one, Q2R_zero, Q2R_quarter_width.
  apply Qle_Rle in Htw. rewrite Q2R_zero in Htw.
  assert (P : (0 <= Q2R tw * u)%R) by (apply Rmult_le_pos; rlra).
  assert (P' : (0 <= Q2R tw * (1 - u))%R) by (apply Rmult_le_pos; rlra).
  split; split; rlra.
Qed.

Lemma sample_within_ranges_witness :
  0 <= 100 /\ 0 <= 68.5 /\ 68.5 <= 2 * 100 /\
  mapScrollOffset 68.5 100 {| opacity := 0.525; translateX := - 12.5 |} /\
  (0.05 <= 0.525 <= 1)%R /\ (- 0.25 * Q2R 100 <= - 12.5 <= 0)%R.
Proof.
  assert (H0 : 0 <= 100) by discriminate.
  assert (H1 : 0 <= 68.5) by discriminate.
  assert (H2 : 68.5 <= 2 * 100) by discriminate.
  split; [exact H0 |]. split; [exact H1 |]. split; [exact H2 |].
  split; [exact sample_mid_curve |].
  exact (sample_within_ranges 100 68.5 _ H0 H1 H2 sample_mid_curve).
Defined.

(** X15: opacity and translateX move in step: at every offset
    0.95 * translateX = 0.25 * tileWidth * (opacity - 1), since both
    interpolations share input range and easing. *)
Theorem opacity_and_translation_in_step (tw x : Q) (s : AnimationSample) :
  mapScrollOffset x tw s ->
  (0.95 * translateX s = 0.25 * Q2R tw * (opacity s - 1))%R.
Proof.
  intros [Ho Ht].
  apply (interpolate_unfold (opacityInterpolation tw) (tw * 2) 1 0.05
           eq_refl eq_refl eq_refl) in Ho.
  apply (interpolate_unfold (translateXInterpolation tw) (tw * 2) 0
           (- (tw * 0.25)) eq_refl eq_refl eq_refl) in Ht.
  destruct Ho as (p & v & Hp & Hv & ->). destruct Ht as (q & u & Hq & Hu & ->).
  rewrite Hp in Hq. injection Hq as <-.
  rewrite (eases_functional _ _ _ Hu Hv).
  rewrite Q2R_one, Q2R_zero, Q2R_quarter_width. rlra.
Qed.

Lemma opacity_and_translation_in_step_witness :
  mapScrollOffset 68.5 100 {| opacity := 0.525; translateX := - 12.5 |} /\
  (0.95 * - 12.5 = 0.25 * Q2R 100 * (0.525 - 1))%R.
Proof.
  split; [exact sample_mid_curve |].
  exact (opacity_and_translation_in_step 100 68.5 _ sample_mid_curve).
Defined.
